(** * In-memory fixed-window rate limiter ([/lib/rate-limit.ts])

    A shallow embedding of [checkRateLimit], of the periodic cleanup of the
    module-level [rateLimit] map, and of the [RATE_LIMITS] table of
    [/lib/config/constants.ts], followed by the properties of the limiter;
    then the authentication and rate-limit steps of the route handlers that
    call the limiter and the response helpers of
    [/lib/utils/api-response.ts] they answer with.

    Conventions of the embedding.
    - The module-level [Map<string, {count, resetTime}>] is a
      [gmap string TokenData] threaded through every operation; the in-place
      [tokenData.count++] on the stored object is an [insert] of the updated
      record under the same key.
    - [Date.now()] is an explicit argument [now]: millisecond timestamps,
      intervals, quotas and counters are integers, modelled in [Z].
    - The optional second parameter of [checkRateLimit] is an [option]; the
      default of the signature is substituted for [None]. *)

From stdpp Require Import gmap strings list fin_maps pretty.
From Stdlib Require Import ZArith Lia.

Local Open Scope Z_scope.

(** ** Data *)

(** Value type of the [rateLimit] map. *)
Record TokenData : Type := mkTokenData {
  count : Z;
  resetTime : Z
}.

(** [interface RateLimitConfig]. *)
Record RateLimitConfig : Type := mkConfig {
  interval : Z;               (* milliseconds *)
  uniqueTokenPerInterval : Z  (* max requests per interval *)
}.

(** Return type of [checkRateLimit]. *)
Record RateLimitResult : Type := mkResult {
  success : bool;
  remaining : Z
}.

#[global] Instance TokenData_eq_dec : EqDecision TokenData.
Proof. solve_decision. Defined.

#[global] Instance RateLimitResult_eq_dec : EqDecision RateLimitResult.
Proof. solve_decision. Defined.

(** The default value of the [config] parameter. *)
Definition default_config : RateLimitConfig :=
  {| interval := 60000; uniqueTokenPerInterval := 10 |}.

(** ** [checkRateLimit]

    The guard [!tokenData || now > tokenData.resetTime] of the first branch
    is spread over the [None] arm and the first test of the [Some] arm; both
    run the same code. *)

Definition checkRateLimit (identifier : string) (config : option RateLimitConfig)
    (now : Z) (rateLimit : gmap string TokenData)
    : gmap string TokenData * RateLimitResult :=
  let config := default default_config config in
  match rateLimit !! identifier with
  | None =>
      (* Reset or create new token *)
      (<[identifier := {| count := 1; resetTime := now + interval config |}]> rateLimit,
       {| success := true; remaining := uniqueTokenPerInterval config - 1 |})
  | Some tokenData =>
      if now >? resetTime tokenData then
        (<[identifier := {| count := 1; resetTime := now + interval config |}]> rateLimit,
         {| success := true; remaining := uniqueTokenPerInterval config - 1 |})
      else if count tokenData >=? uniqueTokenPerInterval config then
        (rateLimit, {| success := false; remaining := 0 |})
      else
        let tokenData' :=
          {| count := count tokenData + 1; resetTime := resetTime tokenData |} in
        (<[identifier := tokenData']> rateLimit,
         {| success := true;
            remaining := uniqueTokenPerInterval config - count tokenData' |})
  end.

(** ** The cleanup callback

    The body of the [setInterval] callback, run at time [now]: it walks the
    entries of the map and deletes those whose [resetTime] lies strictly
    before [now].  Deleting the entry under the iterator is allowed for a
    JavaScript [Map], so the walk visits every entry of the initial map. *)

Definition cleanup_entry (now : Z) (key : string) (value : TokenData)
    (rateLimit : gmap string TokenData) : gmap string TokenData :=
  if now >? resetTime value then delete key rateLimit else rateLimit.

Definition cleanup (now : Z) (rateLimit : gmap string TokenData)
    : gmap string TokenData :=
  map_fold (cleanup_entry now) rateLimit rateLimit.

(** ** The [RATE_LIMITS] table *)

Record RateLimitTier : Type := mkTier {
  tier_interval : Z;
  requests : Z
}.

Module RATE_LIMITS.
Definition DEFAULT := {| tier_interval := 60000; requests := 30 |}.
Definition AUTH := {| tier_interval := 60000; requests := 5 |}.
Definition SHIPMENTS_READ := {| tier_interval := 60000; requests := 50 |}.
Definition SHIPMENTS_WRITE := {| tier_interval := 60000; requests := 20 |}.
Definition INTEGRATIONS_READ := {| tier_interval := 60000; requests := 30 |}.
Definition INTEGRATIONS_WRITE := {| tier_interval := 60000; requests := 5 |}.
Definition SYNC := {| tier_interval := 300000; requests := 3 |}.
End RATE_LIMITS.

(** Modelled from the spec: the admission layer that resolves an operation
    name to a policy is not part of the sources; the specification reads a
    tier of the table as the policy [(interval, quota)] with the tier's
    [requests] as the quota. *)
Definition policy_of_tier (t : RateLimitTier) : RateLimitConfig :=
  {| interval := tier_interval t; uniqueTokenPerInterval := requests t |}.

(** ** Runs *)

(** Successive calls for one identifier under one policy, at the given
    times; returns the final map and the results in call order. *)
Fixpoint calls (identifier : string) (config : option RateLimitConfig)
    (times : list Z) (rateLimit : gmap string TokenData)
    : gmap string TokenData * list RateLimitResult :=
  match times with
  | [] => (rateLimit, [])
  | now :: times' =>
      let '(rateLimit', r) := checkRateLimit identifier config now rateLimit in
      let '(rateLimit'', rs) := calls identifier config times' rateLimit' in
      (rateLimit'', r :: rs)
  end.

(** A request: identifier, policy and the time of the call. *)
Record Request : Type := mkRequest {
  req_id : string;
  req_config : option RateLimitConfig;
  req_now : Z
}.

(** Successive calls with arbitrary identifiers, policies and times. *)
Fixpoint serve (reqs : list Request) (rateLimit : gmap string TokenData)
    : gmap string TokenData * list RateLimitResult :=
  match reqs with
  | [] => (rateLimit, [])
  | q :: reqs' =>
      let '(rateLimit', r) :=
        checkRateLimit (req_id q) (req_config q) (req_now q) rateLimit in
      let '(rateLimit'', rs) := serve reqs' rateLimit' in
      (rateLimit'', r :: rs)
  end.

(** What can happen to the map during the life of the process: a call of
    [checkRateLimit] or a firing of the cleanup timer. *)
Inductive Event : Type :=
  | Check (identifier : string) (config : option RateLimitConfig) (now : Z)
  | Cleanup (now : Z).

Definition step (rateLimit : gmap string TokenData) (e : Event)
    : gmap string TokenData :=
  match e with
  | Check identifier config now => (checkRateLimit identifier config now rateLimit).1
  | Cleanup now => cleanup now rateLimit
  end.

(** The map after a history of events, starting from the empty map the
    module is loaded with. *)
Definition run (history : list Event) : gmap string TokenData :=
  foldl step ∅ history.

(** ** Window states *)

(** The stored window of [identifier] is live at [now]: present and not yet
    past its [resetTime] (the [else] side of the first test). *)
Definition live (rateLimit : gmap string TokenData) (identifier : string)
    (now : Z) : Prop :=
  ∃ tokenData, rateLimit !! identifier = Some tokenData ∧ now <= resetTime tokenData.

(** No window, or one whose [resetTime] is strictly before [now]. *)
Definition stale (rateLimit : gmap string TokenData) (identifier : string)
    (now : Z) : Prop :=
  rateLimit !! identifier = None ∨
  ∃ tokenData, rateLimit !! identifier = Some tokenData ∧ resetTime tokenData < now.

(** The result of the rejecting branch. *)
Definition rejected : RateLimitResult := {| success := false; remaining := 0 |}.

(** The policy a call runs under, after the default is substituted. *)
Definition policy (config : option RateLimitConfig) : RateLimitConfig :=
  default default_config config.

(** The window written by the first branch. *)
Definition fresh_window (config : option RateLimitConfig) (now : Z) : TokenData :=
  {| count := 1; resetTime := now + interval (policy config) |}.

(** The [remaining] fields of the results with [success = true], in call
    order. *)
Definition successful_remaining (results : list RateLimitResult) : list Z :=
  omap (λ r, if success r then Some (remaining r) else None) results.

(** Each element is one less than its predecessor. *)
Definition steps_down (l : list Z) : Prop :=
  ∀ (i : nat) a b, l !! i = Some a → l !! S i = Some b → b = a - 1 ∧ b <= a.

(** [l] is empty or counts down from [a]: [a; a - 1; a - 2; ...]. *)
Fixpoint counts_down_from (a : Z) (l : list Z) : Prop :=
  match l with
  | [] => True
  | b :: l' => b = a ∧ counts_down_from (a - 1) l'
  end.

(** Two maps that differ at most on identifiers whose window in the first
    map is already past its [resetTime] at time [at_time] and is missing
    from the second. *)
Definition same_up_to_expired (at_time : Z)
    (rateLimit1 rateLimit2 : gmap string TokenData) : Prop :=
  ∀ identifier,
    rateLimit1 !! identifier = rateLimit2 !! identifier ∨
    (rateLimit2 !! identifier = None ∧
     ∃ tokenData, rateLimit1 !! identifier = Some tokenData ∧
                  resetTime tokenData < at_time).

(** Every stored window has counted at least one request. *)
Definition counts_positive (rateLimit : gmap string TokenData) : Prop :=
  map_Forall (λ _ tokenData, 1 <= count tokenData) rateLimit.

(** ** Observations on runs and histories *)

(** Number of results with [success = true]. *)
Definition successes (results : list RateLimitResult) : nat :=
  length (successful_remaining results).

(** The identifiers a history has passed to [checkRateLimit]. *)
Definition checked_identifiers (history : list Event) : gset string :=
  list_to_set
    (omap (λ e, match e with
                | Check identifier _ _ => Some identifier
                | Cleanup _ => None
                end) history).

(** No call of the history runs under a quota above [bound]. *)
Definition quotas_at_most (bound : Z) (history : list Event) : Prop :=
  Forall (λ e, match e with
               | Check _ config _ => uniqueTokenPerInterval (policy config) <= bound
               | Cleanup _ => True
               end) history.

(** The history contains no firing of the cleanup timer. *)
Definition never_swept (history : list Event) : Prop :=
  Forall (λ e, match e with Check _ _ _ => True | Cleanup _ => False end) history.

(** Each time of the list is at or after the ones before it. *)
Fixpoint non_decreasing (times : list Z) : Prop :=
  match times with
  | [] => True
  | t :: times' => Forall (λ t', t <= t') times' ∧ non_decreasing times'
  end.

(** ** The route handlers that call the limiter

    Every handler first resolves the caller ([authError || !user] answers
    401), then calls [checkRateLimit] with the key [`<prefix>${user.id}`] and
    answers 429 when [success] is false.  Eight handlers pass an object
    literal as the config, six pass a tier of [RATE_LIMITS]. *)

(** The template literal [`${prefix}${user.id}`]. *)
Definition route_key (prefix user_id : string) : string := prefix +:+ user_id.

(** A handler that passes an object literal: key prefix, config and the
    [error] text of its 429 response. *)
Record Route : Type := mkRoute {
  key_prefix : string;
  route_config : RateLimitConfig;
  throttle_message : string
}.

Definition inline_routes : list Route :=
  [ mkRoute "integrations-get-" (mkConfig 60000 30) "Too many requests";
    mkRoute "integrations-post-" (mkConfig 60000 5) "Too many requests";
    mkRoute "product-sync-" (mkConfig 60000 20) "Too many requests";
    mkRoute "product-links-get-" (mkConfig 60000 30) "Too many requests";
    mkRoute "product-links-post-" (mkConfig 60000 10) "Too many requests";
    mkRoute "events-post-" (mkConfig 60000 15)
      "Too many requests. Please try again later.";
    mkRoute "products-get-" (mkConfig 60000 50) "Too many requests";
    mkRoute "shopify-sync-" (mkConfig 300000 3)
      "Too many sync requests. Please wait a few minutes." ].

(** A handler that passes a tier of the table: key prefix and tier. *)
Record TierRoute : Type := mkTierRoute {
  tier_key_prefix : string;
  route_tier : RateLimitTier
}.

Definition tier_routes : list TierRoute :=
  [ mkTierRoute "dashboard-stats-" RATE_LIMITS.DEFAULT;
    mkTierRoute "shipment-get-" RATE_LIMITS.SHIPMENTS_READ;
    mkTierRoute "shipment-put-" RATE_LIMITS.SHIPMENTS_WRITE;
    mkTierRoute "shipment-delete-" RATE_LIMITS.SHIPMENTS_WRITE;
    mkTierRoute "shipments-get-" RATE_LIMITS.SHIPMENTS_READ;
    mkTierRoute "shipments-post-" RATE_LIMITS.SHIPMENTS_WRITE ].

(** The key prefixes of all handlers. *)
Definition route_prefixes : list string :=
  (key_prefix <$> inline_routes) ++ (tier_key_prefix <$> tier_routes).

(** Two strings differ at a position both of them have. *)
Fixpoint diverge (s1 s2 : string) : bool :=
  match s1, s2 with
  | String a s1', String b s2' => if Ascii.eqb a b then diverge s1' s2' else true
  | _, _ => false
  end.

(** What the authentication and rate-limit steps of a handler decide: a
    response (status and [error] text) that ends the request, or the caller's
    id with which the handler goes on. *)
Inductive GateOutcome : Type :=
  | Respond (status : Z) (error : string)
  | Proceed (user_id : string).

(** The authentication and rate-limit steps of a handler that passes an
    object literal; [user] is [None] when [supabase.auth.getUser()] yields no
    user. *)
Definition route_gate (route : Route) (authError : bool) (user : option string)
    (now : Z) (rateLimit : gmap string TokenData)
    : gmap string TokenData * GateOutcome :=
  match user with
  | None => (rateLimit, Respond 401 "Unauthorized")
  | Some user_id =>
      if authError then (rateLimit, Respond 401 "Unauthorized")
      else
        let '(rateLimit', rateLimitResult) :=
          checkRateLimit (route_key (key_prefix route) user_id)
            (Some (route_config route)) now rateLimit in
        if negb (success rateLimitResult)
        then (rateLimit', Respond 429 (throttle_message route))
        else (rateLimit', Proceed user_id)
  end.

(** An authenticated request to a handler: key prefix of the handler, id of
    the caller, config and time. *)
Record Hit : Type := mkHit {
  hit_prefix : string;
  hit_user : string;
  hit_config : option RateLimitConfig;
  hit_now : Z
}.

Definition request_of_hit (h : Hit) : Request :=
  {| req_id := route_key (hit_prefix h) (hit_user h);
     req_config := hit_config h;
     req_now := hit_now h |}.

(** ** [checkRateLimit] as the JavaScript runtime runs it

    A tier of [RATE_LIMITS] has the properties [interval] and [requests] and
    no [uniqueTokenPerInterval]; a handler that passes a tier makes
    [config.uniqueTokenPerInterval] evaluate to [undefined].  Then
    [count >= undefined] is false and [undefined - n] is [NaN].  The config
    object below has a numeric [interval] and an optional
    [uniqueTokenPerInterval]; a [remaining] of [None] is [NaN]. *)

Record ConfigObject : Type := mkConfigObject {
  obj_interval : Z;
  obj_uniqueTokenPerInterval : option Z
}.

Definition object_of_config (config : RateLimitConfig) : ConfigObject :=
  {| obj_interval := interval config;
     obj_uniqueTokenPerInterval := Some (uniqueTokenPerInterval config) |}.

Definition object_of_tier (t : RateLimitTier) : ConfigObject :=
  {| obj_interval := tier_interval t; obj_uniqueTokenPerInterval := None |}.

Record UntypedResult : Type := mkUntypedResult {
  untyped_success : bool;
  untyped_remaining : option Z
}.

Definition checkRateLimit_untyped (identifier : string) (config : ConfigObject)
    (now : Z) (rateLimit : gmap string TokenData)
    : gmap string TokenData * UntypedResult :=
  let fresh :=
    (<[identifier := {| count := 1; resetTime := now + obj_interval config |}]> rateLimit,
     {| untyped_success := true;
        untyped_remaining := (λ quota, quota - 1) <$> obj_uniqueTokenPerInterval config |}) in
  match rateLimit !! identifier with
  | None => fresh
  | Some tokenData =>
      if now >? resetTime tokenData then fresh
      else if match obj_uniqueTokenPerInterval config with
              | Some quota => count tokenData >=? quota
              | None => false
              end
      then (rateLimit, {| untyped_success := false; untyped_remaining := Some 0 |})
      else
        let tokenData' :=
          {| count := count tokenData + 1; resetTime := resetTime tokenData |} in
        (<[identifier := tokenData']> rateLimit,
         {| untyped_success := true;
            untyped_remaining :=
              (λ quota, quota - count tokenData') <$> obj_uniqueTokenPerInterval config |})
  end.

(** Successive untyped calls for one identifier under one config object. *)
Fixpoint calls_untyped (identifier : string) (config : ConfigObject)
    (times : list Z) (rateLimit : gmap string TokenData)
    : gmap string TokenData * list UntypedResult :=
  match times with
  | [] => (rateLimit, [])
  | now :: times' =>
      let '(rateLimit', r) := checkRateLimit_untyped identifier config now rateLimit in
      let '(rateLimit'', rs) := calls_untyped identifier config times' rateLimit' in
      (rateLimit'', r :: rs)
  end.

(** ** Error responses ([/lib/utils/api-response.ts]) *)

Inductive ErrorCode : Type :=
  | BAD_REQUEST | UNAUTHORIZED | FORBIDDEN | NOT_FOUND | CONFLICT
  | VALIDATION_ERROR | RATE_LIMIT_EXCEEDED
  | INTERNAL_ERROR | DATABASE_ERROR | EXTERNAL_API_ERROR.

#[global] Instance ErrorCode_eq_dec : EqDecision ErrorCode.
Proof. solve_decision. Defined.

Definition getStatusCodeFromErrorCode (code : ErrorCode) : Z :=
  match code with
  | BAD_REQUEST | VALIDATION_ERROR => 400
  | UNAUTHORIZED => 401
  | FORBIDDEN => 403
  | NOT_FOUND => 404
  | CONFLICT => 409
  | RATE_LIMIT_EXCEEDED => 429
  | INTERNAL_ERROR | DATABASE_ERROR | EXTERNAL_API_ERROR => 500
  end.

(** The response built by [errorResponse]: status, the JSON body
    [{success: false, error: {code, message, details, field}}], and the
    [Retry-After] header if one was set.  The [details] passed in the sources
    are string records. *)
Record ApiErrorResponse : Type := mkApiErrorResponse {
  resp_status : Z;
  resp_success : bool;
  resp_code : ErrorCode;
  resp_message : string;
  resp_details : option (gmap string string);
  resp_field : option string;
  resp_retry_after : option string
}.

(** [status || getStatusCodeFromErrorCode(code)]: a missing status and the
    status 0 are both falsy.  The call of the logger is left out. *)
Definition errorResponse (code : ErrorCode) (message : string)
    (details : option (gmap string string)) (field : option string)
    (status : option Z) : ApiErrorResponse :=
  let statusCode :=
    match status with
    | Some s => if s =? 0 then getStatusCodeFromErrorCode code else s
    | None => getStatusCodeFromErrorCode code
    end in
  {| resp_status := statusCode;
     resp_success := false;
     resp_code := code;
     resp_message := message;
     resp_details := details;
     resp_field := field;
     resp_retry_after := None |}.

Definition unauthorizedResponse (message : option string) : ApiErrorResponse :=
  errorResponse UNAUTHORIZED (default "Authentication required" message)
    None None None.

(** [if (retryAfter)] is false for a missing argument and for 0;
    [retryAfter.toString()] of an integer in the safe range is its decimal
    numeral. *)
Definition rateLimitResponse (retryAfter : option Z) : ApiErrorResponse :=
  let response :=
    errorResponse RATE_LIMIT_EXCEEDED "Too many requests. Please try again later."
      None None None in
  match retryAfter with
  | Some seconds =>
      if seconds =? 0 then response
      else {| resp_status := resp_status response;
              resp_success := resp_success response;
              resp_code := resp_code response;
              resp_message := resp_message response;
              resp_details := resp_details response;
              resp_field := resp_field response;
              resp_retry_after := Some (pretty seconds) |}
  | None => response
  end.

(** The authentication and rate-limit steps of a handler that passes a tier:
    the responses come from [unauthorizedResponse()] and
    [rateLimitResponse()]; the right summand is the id of a caller whose
    request goes on. *)
Definition tier_route_gate (route : TierRoute) (authError : bool)
    (user : option string) (now : Z) (rateLimit : gmap string TokenData)
    : gmap string TokenData * (ApiErrorResponse + string) :=
  match user with
  | None => (rateLimit, inl (unauthorizedResponse None))
  | Some user_id =>
      if authError then (rateLimit, inl (unauthorizedResponse None))
      else
        let '(rateLimit', rateLimitResult) :=
          checkRateLimit_untyped (route_key (tier_key_prefix route) user_id)
            (object_of_tier (route_tier route)) now rateLimit in
        if negb (untyped_success rateLimitResult)
        then (rateLimit', inl (rateLimitResponse None))
        else (rateLimit', inr user_id)
  end.

(** ** [paginatedResponse]

    The [meta] object of the response (the [data] array is passed through
    and the status is 200).  [Math.ceil(total / limit)] is the
    ceiling of the quotient for integers in the safe range; with [limit = 0]
    the quotient is not a finite number, written [None]. *)

Record PageMeta : Type := mkPageMeta {
  meta_page : Z;
  meta_limit : Z;
  meta_total : Z;
  totalPages : option Z;
  hasMore : bool
}.

Definition paginatedResponse (page limit total : Z) : PageMeta :=
  {| meta_page := page;
     meta_limit := limit;
     meta_total := total;
     totalPages := if limit =? 0 then None else Some (- ((- total) `div` limit));
     hasMore := page * limit <? total |}.

(** * Properties *)

(** ** The three branches of [checkRateLimit] *)

Section Branches.
Context (identifier : string) (config : option RateLimitConfig) (now : Z).
Implicit Types rateLimit : gmap string TokenData.

Lemma check_stale rateLimit :
  stale rateLimit identifier now →
  checkRateLimit identifier config now rateLimit =
    (<[identifier := fresh_window config now]> rateLimit,
     {| success := true;
        remaining := uniqueTokenPerInterval (policy config) - 1 |}).
Proof.
  unfold checkRateLimit, fresh_window, policy.
  intros [-> | (tokenData & -> & Hlt)]; [done|].
  destruct (Z.gtb_spec now (resetTime tokenData)); [done | lia].
Qed.

Lemma check_exhausted rateLimit tokenData :
  rateLimit !! identifier = Some tokenData →
  now <= resetTime tokenData →
  uniqueTokenPerInterval (policy config) <= count tokenData →
  checkRateLimit identifier config now rateLimit = (rateLimit, rejected).
Proof.
  unfold checkRateLimit, policy. intros -> Hnow Hcount.
  destruct (Z.gtb_spec now (resetTime tokenData)); [lia|].
  destruct (Z.geb_spec (count tokenData)
              (uniqueTokenPerInterval (default default_config config))); [done | lia].
Qed.

Lemma check_increment rateLimit tokenData :
  rateLimit !! identifier = Some tokenData →
  now <= resetTime tokenData →
  count tokenData < uniqueTokenPerInterval (policy config) →
  checkRateLimit identifier config now rateLimit =
    (<[identifier := {| count := count tokenData + 1;
                        resetTime := resetTime tokenData |}]> rateLimit,
     {| success := true;
        remaining := uniqueTokenPerInterval (policy config) - (count tokenData + 1) |}).
Proof.
  unfold checkRateLimit, policy. intros -> Hnow Hcount.
  destruct (Z.gtb_spec now (resetTime tokenData)); [lia|].
  destruct (Z.geb_spec (count tokenData)
              (uniqueTokenPerInterval (default default_config config))); [lia | done].
Qed.

(** Every map and time falls under exactly one of [stale] and [live]. *)
Lemma stale_or_live rateLimit :
  stale rateLimit identifier now ∨ live rateLimit identifier now.
Proof.
  unfold stale, live. destruct (rateLimit !! identifier) as [tokenData|]; [|by left; left].
  destruct (Z.le_gt_cases now (resetTime tokenData)); [right | left; right]; eauto.
Qed.

Lemma stale_not_live rateLimit :
  stale rateLimit identifier now → ¬ live rateLimit identifier now.
Proof.
  intros [Hnone | (t1 & H1 & Hlt)] (t2 & H2 & Hle); simplify_eq; lia.
Qed.

(** A call never touches the entry of another identifier. *)
Lemma check_other rateLimit other :
  identifier ≠ other →
  (checkRateLimit identifier config now rateLimit).1 !! other = rateLimit !! other.
Proof.
  intros Hne. unfold checkRateLimit.
  destruct (rateLimit !! identifier) as [tokenData|]; simpl;
    repeat case_match; simpl; by rewrite ?lookup_insert_ne.
Qed.

(** After any call the identifier has a stored window. *)
Lemma check_stored rateLimit :
  is_Some ((checkRateLimit identifier config now rateLimit).1 !! identifier).
Proof.
  unfold checkRateLimit.
  destruct (rateLimit !! identifier) as [tokenData|] eqn:Hget; simpl;
    repeat case_match; simpl; rewrite ?lookup_insert_eq, ?Hget; eauto.
Qed.

End Branches.

(** ** Rejection *)

(** Inside a live window that has reached the quota every call is rejected
    and the map stays as it is, however many calls follow. *)
Lemma calls_exhausted identifier config rateLimit tokenData times :
  rateLimit !! identifier = Some tokenData →
  uniqueTokenPerInterval (policy config) <= count tokenData →
  Forall (λ now, now <= resetTime tokenData) times →
  calls identifier config times rateLimit =
    (rateLimit, replicate (length times) rejected).
Proof.
  intros Hget Hcount. induction 1 as [|now times Hnow _ IH]; [done|].
  cbn [calls length replicate].
  by rewrite (check_exhausted _ _ _ _ _ Hget Hnow Hcount), IH.
Qed.

(** C2 (no increment on reject).  When the stored window of an identifier is
    live and its count has reached the quota, a call returns
    [success = false] and [remaining = 0] and leaves the map, hence the
    window's [count] and [resetTime], unchanged; any number of further calls
    inside the window are rejected the same way with [remaining = 0] and
    change nothing; and the first call after the window's [resetTime] stores
    a window whose count is 1, with [remaining = quota - 1]. *)
Theorem reject_does_not_increment identifier cfg now rateLimit tokenData :
  rateLimit !! identifier = Some tokenData →
  now <= resetTime tokenData →
  uniqueTokenPerInterval cfg <= count tokenData →
  checkRateLimit identifier (Some cfg) now rateLimit = (rateLimit, rejected) ∧
  (∀ times,
     Forall (λ t, t <= resetTime tokenData) times →
     calls identifier (Some cfg) times rateLimit =
       (rateLimit, replicate (length times) rejected)) ∧
  (∀ times later,
     Forall (λ t, t <= resetTime tokenData) times →
     resetTime tokenData < later →
     let after_rejects := (calls identifier (Some cfg) times rateLimit).1 in
     let '(rateLimit', r) :=
       checkRateLimit identifier (Some cfg) later after_rejects in
     rateLimit' !! identifier =
       Some {| count := 1; resetTime := later + interval cfg |} ∧
     r = {| success := true; remaining := uniqueTokenPerInterval cfg - 1 |}).
Proof.
  intros Hget Hnow Hcount. split_and!.
  - by apply (check_exhausted _ (Some cfg) _ _ _ Hget).
  - intros times Htimes. by apply (calls_exhausted _ (Some cfg) _ tokenData).
  - intros times later Htimes Hlater.
    rewrite (calls_exhausted _ (Some cfg) _ tokenData) by done. cbn [fst].
    rewrite (check_stale _ (Some cfg)) by (right; eauto).
    by rewrite lookup_insert_eq.
Qed.

Lemma reject_does_not_increment_witness :
  let cfg := {| interval := 1000; uniqueTokenPerInterval := 1 |} in
  let rateLimit : gmap string TokenData :=
    {[ "auth-user2"%string := {| count := 1; resetTime := 1000 |} ]} in
  checkRateLimit "auth-user2" (Some cfg) 500 rateLimit = (rateLimit, rejected) ∧
  calls "auth-user2" (Some cfg) [600; 700; 1000] rateLimit =
    (rateLimit, [rejected; rejected; rejected]) ∧
  (checkRateLimit "auth-user2" (Some cfg) 1001
     (calls "auth-user2" (Some cfg) [600; 700; 1000] rateLimit).1).2 =
    {| success := true; remaining := 0 |}.
Proof.
  intros cfg rateLimit.
  destruct (reject_does_not_increment "auth-user2" cfg 500 rateLimit
              {| count := 1; resetTime := 1000 |})
    as (Hone & Hmany & Hreset);
    [reflexivity | simpl; lia | simpl; lia |].
  split; [exact Hone|]. split.
  - apply (Hmany [600; 700; 1000]). repeat constructor; simpl; lia.
  - specialize (Hreset [600; 700; 1000] 1001).
    cbv zeta in Hreset.
    destruct (checkRateLimit "auth-user2" (Some cfg) 1001
                (calls "auth-user2" (Some cfg) [600; 700; 1000] rateLimit).1)
      as [rateLimit' r].
    apply Hreset; [repeat constructor; simpl; lia | simpl; lia].
Defined.

(** ** Window creation and reset *)

(** C3 as the specification words it, with the boundary [now = resetTime]
    counted as expired, fails: at the very millisecond of [resetTime] the
    window is still live ([now > resetTime] is false), so an exhausted
    identifier is rejected there. *)
Lemma reset_at_boundary_counterexample :
  ¬ (∀ identifier cfg now (rateLimit : gmap string TokenData) tokenData,
       rateLimit !! identifier = Some tokenData →
       resetTime tokenData <= now →
       (checkRateLimit identifier (Some cfg) now rateLimit).2 =
         {| success := true; remaining := uniqueTokenPerInterval cfg - 1 |}).
Proof.
  intros Hclaim.
  specialize (Hclaim "auth-user2"%string
                {| interval := 1000; uniqueTokenPerInterval := 1 |} 1000
                {[ "auth-user2"%string := {| count := 1; resetTime := 1000 |} ]}
                {| count := 1; resetTime := 1000 |} eq_refl).
  assert (Hboundary : resetTime {| count := 1; resetTime := 1000 |} <= 1000)
    by (simpl; lia).
  specialize (Hclaim Hboundary). vm_compute in Hclaim. discriminate Hclaim.
Qed.

(** C3, amended to the strict comparison of the code.  When no window is
    stored for the identifier, or the stored window's [resetTime] is strictly
    before the current time, the call stores a window with [count = 1] and
    [resetTime = now + interval] under the identifier, changes no other
    entry, and returns [success = true] with [remaining = quota - 1]. *)
Theorem window_creation_or_reset identifier cfg now rateLimit :
  stale rateLimit identifier now →
  let '(rateLimit', r) := checkRateLimit identifier (Some cfg) now rateLimit in
  rateLimit' =
    <[identifier := {| count := 1; resetTime := now + interval cfg |}]> rateLimit ∧
  rateLimit' !! identifier =
    Some {| count := 1; resetTime := now + interval cfg |} ∧
  r = {| success := true; remaining := uniqueTokenPerInterval cfg - 1 |}.
Proof.
  intros Hstale. rewrite (check_stale _ (Some cfg) _ _ Hstale).
  by rewrite lookup_insert_eq.
Qed.

Lemma window_creation_or_reset_witness :
  let cfg := {| interval := 1000; uniqueTokenPerInterval := 3 |} in
  checkRateLimit "auth-user2" (Some cfg) 1001
    {[ "auth-user2"%string := {| count := 3; resetTime := 1000 |} ]} =
  ({[ "auth-user2"%string := {| count := 1; resetTime := 2001 |} ]},
   {| success := true; remaining := 2 |}).
Proof.
  intros cfg.
  pose proof (window_creation_or_reset "auth-user2" cfg 1001
    {[ "auth-user2"%string := {| count := 3; resetTime := 1000 |} ]}) as H.
  destruct (checkRateLimit _ _ _ _) as [rateLimit' r].
  destruct H as (-> & _ & ->).
  - right. eexists. split; [reflexivity | simpl; lia].
  - reflexivity.
Defined.

(** ** Calls on a live window *)

(** C10 (a live window keeps its [resetTime]).  For an identifier with a
    stored window, a call inside the window (not past its [resetTime]) leaves
    a window with the same [resetTime]: an admitted call raises [count] by
    one and alters nothing else in the map, a rejected call leaves the map
    unchanged.  Conversely, if the stored [resetTime] after a call differs
    from the one before, the call found the window expired and wrote the
    fresh window [count = 1], [resetTime = now + interval]. *)
Theorem live_call_keeps_resetTime identifier cfg now rateLimit tokenData :
  rateLimit !! identifier = Some tokenData →
  let '(rateLimit', r) := checkRateLimit identifier (Some cfg) now rateLimit in
  (now <= resetTime tokenData →
   ∃ tokenData',
     rateLimit' !! identifier = Some tokenData' ∧
     resetTime tokenData' = resetTime tokenData ∧
     (success r = true →
      count tokenData' = count tokenData + 1 ∧
      rateLimit' = <[identifier := tokenData']> rateLimit) ∧
     (success r = false → rateLimit' = rateLimit)) ∧
  (∀ tokenData',
     rateLimit' !! identifier = Some tokenData' →
     resetTime tokenData' ≠ resetTime tokenData →
     resetTime tokenData < now ∧
     tokenData' = {| count := 1; resetTime := now + interval cfg |}).
Proof.
  intros Hget.
  destruct (Z.le_gt_cases now (resetTime tokenData)) as [Hlive | Hpast].
  - destruct (Z.le_gt_cases (uniqueTokenPerInterval cfg) (count tokenData))
      as [Hfull | Hroom].
    + rewrite (check_exhausted _ (Some cfg) _ _ _ Hget Hlive Hfull). split.
      * intros _. exists tokenData. by rewrite Hget.
      * intros tokenData' Hget' Hne. congruence.
    + rewrite (check_increment _ (Some cfg) _ _ _ Hget Hlive Hroom). split.
      * intros _. eexists. rewrite lookup_insert_eq. by split_and!.
      * intros tokenData' Hget' Hne.
        rewrite lookup_insert_eq in Hget'. by simplify_eq.
  - rewrite (check_stale _ (Some cfg)) by (right; eauto). split; [lia|].
    intros tokenData' Hget' _. rewrite lookup_insert_eq in Hget'.
    by simplify_eq.
Qed.

Lemma live_call_keeps_resetTime_witness :
  let cfg := {| interval := 60000; uniqueTokenPerInterval := 3 |} in
  (checkRateLimit "write-user1" (Some cfg) 59999
     {[ "write-user1"%string := {| count := 1; resetTime := 60000 |} ]}).1
    !! "write-user1"%string = Some {| count := 2; resetTime := 60000 |}.
Proof.
  intros cfg.
  pose proof (live_call_keeps_resetTime "write-user1" cfg 59999
    {[ "write-user1"%string := {| count := 1; resetTime := 60000 |} ]}
    {| count := 1; resetTime := 60000 |} eq_refl) as H.
  destruct (checkRateLimit _ _ _ _) as [rateLimit' r] eqn:Hcall.
  destruct H as [Hlive _].
  destruct Hlive as (tokenData' & Hget' & Hreset & Hadm & _); [simpl; lia|].
  assert (Hr : success r = true) by (by injection Hcall as _ <-).
  destruct (Hadm Hr) as [Hcount _]. simpl in *.
  rewrite Hget'. destruct tokenData'; simpl in *; by subst.
Defined.

(** ** Independence of identifiers *)

(** What a call does to its own identifier, and what it returns, depends on
    the map only through the entry of that identifier. *)
Lemma check_local identifier config now (rateLimit1 rateLimit2 : gmap string TokenData) :
  rateLimit1 !! identifier = rateLimit2 !! identifier →
  (checkRateLimit identifier config now rateLimit1).2 =
    (checkRateLimit identifier config now rateLimit2).2 ∧
  (checkRateLimit identifier config now rateLimit1).1 !! identifier =
    (checkRateLimit identifier config now rateLimit2).1 !! identifier.
Proof.
  intros Heq. unfold checkRateLimit. rewrite <- Heq.
  destruct (rateLimit1 !! identifier) as [tokenData|] eqn:Hget; simpl;
    repeat case_match; simpl; rewrite ?lookup_insert_eq; auto.
  by rewrite Hget, <- Heq.
Qed.

(** Requests for other identifiers leave an entry as it is. *)
Lemma serve_other reqs (rateLimit : gmap string TokenData) other :
  Forall (λ q, req_id q ≠ other) reqs →
  (serve reqs rateLimit).1 !! other = rateLimit !! other.
Proof.
  intros Hreqs. revert rateLimit.
  induction Hreqs as [|q reqs Hq _ IH]; intros rateLimit; [done|].
  cbn [serve].
  destruct (checkRateLimit (req_id q) (req_config q) (req_now q) rateLimit)
    as [rateLimit' r] eqn:Hcall.
  specialize (IH rateLimit').
  destruct (serve reqs rateLimit') as [rateLimit'' rs]. cbn [fst] in *.
  rewrite IH.
  by rewrite <- (check_other (req_id q) (req_config q) (req_now q) rateLimit other Hq),
    Hcall.
Qed.

(** C6 (identifier independence).  For distinct identifiers [A] and [B], any
    sequence of calls for [A], under any policies and at any times, leaves
    the stored window of [B] (its [count] and [resetTime], or its absence)
    as it was, and a following call for [B] returns the same result and
    stores the same window as it would have without the calls for [A]. *)
Theorem identifier_independence (A B : string) reqs
    (rateLimit : gmap string TokenData) :
  A ≠ B →
  Forall (λ q, req_id q = A) reqs →
  let rateLimit' := (serve reqs rateLimit).1 in
  rateLimit' !! B = rateLimit !! B ∧
  ∀ config now,
    (checkRateLimit B config now rateLimit').2 =
      (checkRateLimit B config now rateLimit).2 ∧
    (checkRateLimit B config now rateLimit').1 !! B =
      (checkRateLimit B config now rateLimit).1 !! B.
Proof.
  intros Hne Hreqs rateLimit'.
  assert (Hsame : rateLimit' !! B = rateLimit !! B).
  { apply serve_other. eapply Forall_impl; [exact Hreqs|].
    intros q Hq. simpl in Hq. congruence. }
  split; [exact Hsame|]. intros config now. by apply check_local.
Qed.

Lemma identifier_independence_witness :
  let cfg := Some {| interval := 300000; uniqueTokenPerInterval := 1 |} in
  let rateLimit' :=
    (serve [mkRequest "sync-userA" cfg 0; mkRequest "sync-userA" cfg 10] ∅).1 in
  rateLimit' !! "sync-userB"%string = None ∧
  (checkRateLimit "sync-userB" cfg 20 rateLimit').2 =
    {| success := true; remaining := 0 |}.
Proof.
  intros cfg rateLimit'.
  destruct (identifier_independence "sync-userA" "sync-userB"
              [mkRequest "sync-userA" cfg 0; mkRequest "sync-userA" cfg 10] ∅)
    as [Hstored Hcall].
  - discriminate.
  - repeat constructor.
  - split; [exact Hstored|]. exact (proj1 (Hcall cfg 20)).
Defined.

(** ** The cleanup sweep *)

(** The sweep removes exactly the entries whose [resetTime] is strictly
    before the time of the sweep, and keeps every other entry as it is. *)
Lemma cleanup_lookup now (rateLimit : gmap string TokenData) identifier :
  cleanup now rateLimit !! identifier =
    match rateLimit !! identifier with
    | Some tokenData =>
        if now >? resetTime tokenData then None else Some tokenData
    | None => None
    end.
Proof.
  unfold cleanup.
  assert (Hwalk : ∀ visited : gmap string TokenData,
    map_fold (cleanup_entry now) rateLimit visited !! identifier =
      match visited !! identifier with
      | Some tokenData =>
          if now >? resetTime tokenData then None else rateLimit !! identifier
      | None => rateLimit !! identifier
      end); [| rewrite Hwalk; by repeat case_match].
  apply (map_fold_weak_ind (λ acc (visited : gmap string TokenData),
    acc !! identifier =
      match visited !! identifier with
      | Some tokenData =>
          if now >? resetTime tokenData then None else rateLimit !! identifier
      | None => rateLimit !! identifier
      end)).
  - by rewrite lookup_empty.
  - intros key value m acc Hfresh IH. unfold cleanup_entry.
    destruct (decide (key = identifier)) as [->|Hne].
    + rewrite lookup_insert_eq. rewrite Hfresh in IH.
      destruct (now >? resetTime value); [by rewrite lookup_delete_eq | done].
    + rewrite lookup_insert_ne by done.
      destruct (now >? resetTime value); [by rewrite lookup_delete_ne | done].
Qed.

(** ** Stored counts *)

Lemma check_counts_positive identifier config now rateLimit :
  counts_positive rateLimit →
  counts_positive (checkRateLimit identifier config now rateLimit).1.
Proof.
  unfold counts_positive. intros Hpos.
  destruct (stale_or_live identifier now rateLimit) as [Hstale | (tokenData & Hget & Hnow)].
  - rewrite (check_stale _ config _ _ Hstale). cbn [fst].
    apply map_Forall_insert_2; [simpl; lia | done].
  - pose proof (Hpos _ _ Hget) as Hcount. simpl in Hcount.
    destruct (Z.le_gt_cases (uniqueTokenPerInterval (policy config)) (count tokenData))
      as [Hfull | Hroom].
    + by rewrite (check_exhausted _ _ _ _ _ Hget Hnow Hfull).
    + rewrite (check_increment _ _ _ _ _ Hget Hnow Hroom). cbn [fst].
      apply map_Forall_insert_2; [simpl; lia | done].
Qed.

Lemma cleanup_counts_positive now rateLimit :
  counts_positive rateLimit → counts_positive (cleanup now rateLimit).
Proof.
  unfold counts_positive. intros Hpos identifier tokenData.
  rewrite cleanup_lookup.
  destruct (rateLimit !! identifier) as [stored|] eqn:Hget; [|done].
  destruct (now >? resetTime stored); [done|].
  intros [= <-]. by apply (Hpos identifier).
Qed.

Lemma history_counts_positive history rateLimit :
  counts_positive rateLimit → counts_positive (foldl step rateLimit history).
Proof.
  revert rateLimit. induction history as [|e history IH]; intros rateLimit Hpos; [done|].
  cbn [foldl]. apply IH. destruct e as [identifier config now | now]; cbn [step].
  - by apply check_counts_positive.
  - by apply cleanup_counts_positive.
Qed.

(** C9 (stored counts are at least 1).  Starting from the empty map, after
    any sequence of [checkRateLimit] calls and cleanup sweeps, every window
    stored in the map has [count >= 1]. *)
Theorem stored_count_at_least_one history identifier tokenData :
  run history !! identifier = Some tokenData →
  1 <= count tokenData.
Proof.
  intros Hget.
  assert (Hpos : counts_positive (run history)).
  { apply history_counts_positive. unfold counts_positive. apply map_Forall_empty. }
  exact (Hpos identifier tokenData Hget).
Qed.

Lemma stored_count_at_least_one_witness :
  1 <= count {| count := 2; resetTime := 1000 |}.
Proof.
  apply (stored_count_at_least_one
           [Check "a" (Some {| interval := 1000; uniqueTokenPerInterval := 5 |}) 0;
            Check "b" (Some {| interval := 10; uniqueTokenPerInterval := 5 |}) 1;
            Check "a" (Some {| interval := 1000; uniqueTokenPerInterval := 5 |}) 2;
            Cleanup 100]
           "a").
  vm_compute. reflexivity.
Defined.

(** ** Degenerate quota *)

(** C4 as the specification words it fails: with quota 0 the first call for
    an identifier that has no window is admitted. *)
Lemma zero_quota_first_call_counterexample :
  ¬ (∀ identifier cfg now (rateLimit : gmap string TokenData),
       uniqueTokenPerInterval cfg <= 0 →
       success (checkRateLimit identifier (Some cfg) now rateLimit).2 = false).
Proof.
  intros Hclaim.
  assert (Hquota : uniqueTokenPerInterval {| interval := 60000; uniqueTokenPerInterval := 0 |} <= 0)
    by (simpl; lia).
  specialize (Hclaim "write-user1"%string _ 0 ∅ Hquota).
  vm_compute in Hclaim. discriminate Hclaim.
Qed.

(** C4, amended.  Under a policy with quota [<= 0], in any map the process
    can reach, a call returns a result (the function is total: it never
    throws) and: on a live window it is rejected with [remaining = 0] and the
    map is unchanged; on an identifier with no window, or with an expired
    one, it is admitted with [remaining = quota - 1] and stores a fresh
    window. *)
Theorem nonpositive_quota identifier cfg now history :
  uniqueTokenPerInterval cfg <= 0 →
  let rateLimit := run history in
  (live rateLimit identifier now →
   checkRateLimit identifier (Some cfg) now rateLimit = (rateLimit, rejected)) ∧
  (stale rateLimit identifier now →
   checkRateLimit identifier (Some cfg) now rateLimit =
     (<[identifier := {| count := 1; resetTime := now + interval cfg |}]> rateLimit,
      {| success := true; remaining := uniqueTokenPerInterval cfg - 1 |})).
Proof.
  intros Hquota rateLimit. split.
  - intros (tokenData & Hget & Hnow).
    apply (check_exhausted _ (Some cfg) _ _ _ Hget Hnow). simpl.
    assert (Hpos : counts_positive rateLimit).
    { apply history_counts_positive. unfold counts_positive. apply map_Forall_empty. }
    pose proof (Hpos _ _ Hget) as Hcount. simpl in Hcount. lia.
  - intros Hstale. by rewrite (check_stale _ (Some cfg) _ _ Hstale).
Qed.

Lemma nonpositive_quota_witness :
  let cfg := {| interval := 60000; uniqueTokenPerInterval := 0 |} in
  let rateLimit := run [Check "write-user1" (Some cfg) 0] in
  checkRateLimit "write-user1" (Some cfg) 1 rateLimit = (rateLimit, rejected) ∧
  checkRateLimit "write-user1" (Some cfg) 0 ∅ =
    ({[ "write-user1"%string := {| count := 1; resetTime := 60000 |} ]},
     {| success := true; remaining := -1 |}).
Proof.
  intros cfg rateLimit. split.
  - apply (nonpositive_quota "write-user1" cfg 1 [Check "write-user1" (Some cfg) 0]).
    + simpl; lia.
    + exists {| count := 1; resetTime := 60000 |}. split; [reflexivity | simpl; lia].
  - apply (nonpositive_quota "write-user1" cfg 0 []).
    + simpl; lia.
    + by left.
Defined.

(** ** Counting inside one window *)

(** While the quota leaves room, the calls inside a live window are all
    admitted, each raising the stored count by one. *)
Lemma calls_counting identifier config times :
  ∀ (rateLimit : gmap string TokenData) tokenData,
    rateLimit !! identifier = Some tokenData →
    Forall (λ now, now <= resetTime tokenData) times →
    count tokenData + Z.of_nat (length times) <= uniqueTokenPerInterval (policy config) →
    (calls identifier config times rateLimit).1 !! identifier =
      Some {| count := count tokenData + Z.of_nat (length times);
              resetTime := resetTime tokenData |} ∧
    (calls identifier config times rateLimit).2 =
      (λ c, {| success := true;
               remaining := uniqueTokenPerInterval (policy config) - c |})
        <$> seqZ (count tokenData + 1) (Z.of_nat (length times)).
Proof.
  induction times as [|now times IH]; intros rateLimit tokenData Hget Htimes Hroom.
  - cbn. rewrite Hget, Z.add_0_r. by destruct tokenData.
  - apply Forall_cons in Htimes as [Hnow Htimes]. cbn [length] in Hroom.
    cbn [calls].
    rewrite (check_increment _ config _ _ _ Hget Hnow) by lia.
    set (stored := {| count := count tokenData + 1; resetTime := resetTime tokenData |}).
    destruct (IH (<[identifier := stored]> rateLimit) stored) as [IHmap IHres].
    { apply lookup_insert_eq. }
    { done. }
    { simpl. lia. }
    destruct (calls identifier config times (<[identifier := stored]> rateLimit))
      as [rateLimit' rs].
    cbn [fst snd] in *. split.
    + rewrite IHmap. simpl. do 2 f_equal. cbn [length]. lia.
    + rewrite IHres. cbn [length].
      rewrite (seqZ_cons (count tokenData + 1)) by lia.
      cbn [fmap list_fmap]. simpl count. do 3 f_equal; lia.
Qed.

(** C1 (quota ceiling).  For every identifier and every policy with
    [quota >= 1]: when a call opens a window (no window stored, or the stored
    one expired) and is followed by [quota - 1] further calls inside that
    window, these [quota] calls are all admitted, with [remaining] running
    [quota - 1, ..., 0], and one more call inside the same window returns
    [success = false] with [remaining = 0], the map unchanged. *)
Theorem quota_ceiling identifier cfg rateLimit first others last :
  1 <= uniqueTokenPerInterval cfg →
  stale rateLimit identifier first →
  Z.of_nat (length others) = uniqueTokenPerInterval cfg - 1 →
  Forall (λ now, now <= first + interval cfg) (others ++ [last]) →
  let '(rateLimit', results) :=
    calls identifier (Some cfg) (first :: others) rateLimit in
  results =
    (λ c, {| success := true; remaining := uniqueTokenPerInterval cfg - c |})
      <$> seqZ 1 (uniqueTokenPerInterval cfg) ∧
  checkRateLimit identifier (Some cfg) last rateLimit' = (rateLimit', rejected).
Proof.
  intros Hquota Hstale Hlen Hwindow.
  apply Forall_app in Hwindow as [Hothers Hlast].
  rewrite Forall_singleton in Hlast.
  cbn [calls]. rewrite (check_stale _ (Some cfg) _ _ Hstale).
  set (opened := <[identifier := fresh_window (Some cfg) first]> rateLimit).
  destruct (calls_counting identifier (Some cfg) others opened
              (fresh_window (Some cfg) first)) as [Hmap Hres].
  { apply lookup_insert_eq. }
  { done. }
  { simpl. lia. }
  destruct (calls identifier (Some cfg) others opened) as [rateLimit' rs].
  cbn [fst snd] in *. split.
  - rewrite Hres. rewrite (seqZ_cons 1) by lia.
    cbn [fmap list_fmap]. simpl. do 3 f_equal; lia.
  - apply (check_exhausted _ (Some cfg) _ _ _ Hmap); simpl; [done | lia].
Qed.

Lemma quota_ceiling_witness :
  let cfg := {| interval := 60000; uniqueTokenPerInterval := 3 |} in
  let '(rateLimit', results) :=
    calls "write-user1" (Some cfg) [0; 10; 20] ∅ in
  results = [ {| success := true; remaining := 2 |};
              {| success := true; remaining := 1 |};
              {| success := true; remaining := 0 |} ] ∧
  checkRateLimit "write-user1" (Some cfg) 60000 rateLimit' = (rateLimit', rejected).
Proof.
  intros cfg.
  apply (quota_ceiling "write-user1" cfg ∅ 0 [10; 20] 60000).
  - simpl; lia.
  - by left.
  - reflexivity.
  - repeat constructor; simpl; lia.
Defined.

(** ** Monotonicity of [remaining] *)

(** Inside a live window the [remaining] values of the admitted calls count
    down from [quota - (count + 1)]. *)
Lemma calls_live_counts_down identifier config times :
  ∀ (rateLimit : gmap string TokenData) tokenData,
    rateLimit !! identifier = Some tokenData →
    Forall (λ now, now <= resetTime tokenData) times →
    counts_down_from
      (uniqueTokenPerInterval (policy config) - (count tokenData + 1))
      (successful_remaining (calls identifier config times rateLimit).2).
Proof.
  induction times as [|now times IH]; intros rateLimit tokenData Hget Htimes; [done|].
  apply Forall_cons in Htimes as [Hnow Htimes]. cbn [calls].
  destruct (Z.le_gt_cases (uniqueTokenPerInterval (policy config)) (count tokenData))
    as [Hfull | Hroom].
  - rewrite (check_exhausted _ config _ _ _ Hget Hnow Hfull).
    specialize (IH rateLimit tokenData Hget Htimes).
    by destruct (calls identifier config times rateLimit) as [rateLimit' rs].
  - rewrite (check_increment _ config _ _ _ Hget Hnow Hroom).
    set (stored := {| count := count tokenData + 1; resetTime := resetTime tokenData |}).
    specialize (IH (<[identifier := stored]> rateLimit) stored
                  (lookup_insert_eq _ _ _) Htimes).
    destruct (calls identifier config times (<[identifier := stored]> rateLimit))
      as [rateLimit' rs].
    cbn [snd] in *. cbn. split; [done|].
    simpl in IH.
    by replace (uniqueTokenPerInterval (policy config) - (count tokenData + 1) - 1)
      with (uniqueTokenPerInterval (policy config) - (count tokenData + 1 + 1)) by lia.
Qed.

Lemma counts_down_steps l : ∀ a, counts_down_from a l → steps_down l.
Proof.
  induction l as [|b l IH]; intros a Hdown i x y Hx Hy; [done|].
  destruct Hdown as [-> Hdown]. destruct i as [|i].
  - simpl in Hx, Hy. injection Hx as <-.
    destruct l as [|b' l]; [done|]. destruct Hdown as [-> _].
    simpl in Hy. injection Hy as <-. lia.
  - by apply (IH _ Hdown i).
Qed.

(** C7 (remaining monotonicity).  For a fixed identifier and policy, take any
    call and any further calls that fall inside the window stored after it.
    Over the admitted calls of this run, each [remaining] is exactly one less
    than that of the admitted call before it (so the values never
    increase). *)
Theorem remaining_decreases_by_one identifier cfg rateLimit first others tokenData :
  (checkRateLimit identifier (Some cfg) first rateLimit).1 !! identifier =
    Some tokenData →
  Forall (λ now, now <= resetTime tokenData) others →
  steps_down
    (successful_remaining
       (calls identifier (Some cfg) (first :: others) rateLimit).2).
Proof.
  intros Hstored Hothers.
  destruct (stale_or_live identifier first rateLimit)
    as [Hstale | (stored & Hget & Hfirst)].
  - apply (counts_down_steps _ (uniqueTokenPerInterval cfg - 1)).
    cbn [calls]. rewrite (check_stale _ (Some cfg) _ _ Hstale) in Hstored |- *.
    cbn [fst] in Hstored. rewrite lookup_insert_eq in Hstored.
    injection Hstored as <-.
    pose proof (calls_live_counts_down identifier (Some cfg) others
      (<[identifier := fresh_window (Some cfg) first]> rateLimit)
      (fresh_window (Some cfg) first) (lookup_insert_eq _ _ _) Hothers) as Hdown.
    destruct (calls identifier (Some cfg) others _) as [rateLimit' rs].
    cbn [snd] in *. cbn. split; [done|].
    simpl in Hdown.
    by replace (uniqueTokenPerInterval cfg - 1 - 1)
      with (uniqueTokenPerInterval cfg - (1 + 1)) by lia.
  - apply (counts_down_steps _ (uniqueTokenPerInterval cfg - (count stored + 1))).
    apply (calls_live_counts_down identifier (Some cfg) _ rateLimit stored Hget).
    apply Forall_cons. split; [done|].
    assert (Hsame : resetTime tokenData = resetTime stored); [|by rewrite <- Hsame].
    destruct (Z.le_gt_cases (uniqueTokenPerInterval cfg) (count stored))
      as [Hfull | Hroom].
    + rewrite (check_exhausted _ (Some cfg) _ _ _ Hget Hfirst Hfull) in Hstored.
      cbn [fst] in Hstored. congruence.
    + rewrite (check_increment _ (Some cfg) _ _ _ Hget Hfirst Hroom) in Hstored.
      cbn [fst] in Hstored. rewrite lookup_insert_eq in Hstored.
      by injection Hstored as <-.
Qed.

Lemma remaining_decreases_by_one_witness :
  steps_down
    (successful_remaining
       (calls "write-user1"
          (Some {| interval := 60000; uniqueTokenPerInterval := 3 |})
          [0; 10; 20; 30] ∅).2).
Proof.
  apply (remaining_decreases_by_one "write-user1"
           {| interval := 60000; uniqueTokenPerInterval := 3 |} ∅ 0 [10; 20; 30]
           {| count := 1; resetTime := 60000 |}).
  - reflexivity.
  - repeat constructor; simpl; lia.
Defined.

(** ** Transparency of the sweep *)

Lemma cleanup_same_up_to now (rateLimit : gmap string TokenData) :
  same_up_to_expired now rateLimit (cleanup now rateLimit).
Proof.
  intros identifier. rewrite cleanup_lookup.
  destruct (rateLimit !! identifier) as [tokenData|]; [|by left].
  destruct (Z.gtb_spec now (resetTime tokenData)); [right | left]; eauto.
Qed.

(** A call made no earlier than [at_time] cannot tell two such maps apart, and
    leaves them in the same relation. *)
Lemma check_same_up_to at_time identifier config now
    (rateLimit1 rateLimit2 : gmap string TokenData) :
  same_up_to_expired at_time rateLimit1 rateLimit2 →
  at_time <= now →
  (checkRateLimit identifier config now rateLimit1).2 =
    (checkRateLimit identifier config now rateLimit2).2 ∧
  same_up_to_expired at_time
    (checkRateLimit identifier config now rateLimit1).1
    (checkRateLimit identifier config now rateLimit2).1.
Proof.
  intros Hsame Hnow.
  assert (Hown :
    (checkRateLimit identifier config now rateLimit1).2 =
      (checkRateLimit identifier config now rateLimit2).2 ∧
    (checkRateLimit identifier config now rateLimit1).1 !! identifier =
      (checkRateLimit identifier config now rateLimit2).1 !! identifier).
  { destruct (Hsame identifier) as [Heq | (Hnone & tokenData & Hget & Hpast)].
    - by apply check_local.
    - rewrite (check_stale _ config now rateLimit1) by (right; exists tokenData; split; [done | lia]).
      rewrite (check_stale _ config now rateLimit2) by (by left).
      cbn [fst snd]. by rewrite !lookup_insert_eq. }
  destruct Hown as [Hres Hentry]. split; [done|].
  intros other. destruct (decide (identifier = other)) as [<- | Hne]; [by left|].
  rewrite !check_other by done. apply Hsame.
Qed.

Lemma serve_same_up_to at_time reqs :
  ∀ rateLimit1 rateLimit2 : gmap string TokenData,
    same_up_to_expired at_time rateLimit1 rateLimit2 →
    Forall (λ q, at_time <= req_now q) reqs →
    (serve reqs rateLimit1).2 = (serve reqs rateLimit2).2.
Proof.
  induction reqs as [|q reqs IH]; intros rateLimit1 rateLimit2 Hsame Hreqs; [done|].
  apply Forall_cons in Hreqs as [Hq Hreqs]. cbn [serve].
  destruct (check_same_up_to at_time (req_id q) (req_config q) (req_now q)
              rateLimit1 rateLimit2 Hsame Hq) as [Hres Hsame'].
  destruct (checkRateLimit (req_id q) (req_config q) (req_now q) rateLimit1)
    as [rateLimit1' r1].
  destruct (checkRateLimit (req_id q) (req_config q) (req_now q) rateLimit2)
    as [rateLimit2' r2].
  cbn [fst snd] in *. specialize (IH rateLimit1' rateLimit2' Hsame' Hreqs).
  destruct (serve reqs rateLimit1') as [? rs1].
  destruct (serve reqs rateLimit2') as [? rs2].
  cbn [snd] in *. congruence.
Qed.

(** C5 (sweep transparency).  A sweep at any time removes exactly the entries
    whose [resetTime] is strictly before that time and keeps the others as
    they are; for every map and every subsequent sequence of calls (any
    identifiers and policies, made no earlier than the sweep), the results
    are the same with and without the sweep.  In particular a call for a
    swept identifier is answered like a call for a brand-new identifier, and
    a surviving identifier keeps its stored window, hence its count. *)
Theorem sweep_transparency at_time (rateLimit : gmap string TokenData) reqs :
  Forall (λ q, at_time <= req_now q) reqs →
  (∀ identifier,
     cleanup at_time rateLimit !! identifier =
       match rateLimit !! identifier with
       | Some tokenData =>
           if at_time >? resetTime tokenData then None else Some tokenData
       | None => None
       end) ∧
  (serve reqs (cleanup at_time rateLimit)).2 = (serve reqs rateLimit).2 ∧
  (∀ identifier tokenData config now,
     rateLimit !! identifier = Some tokenData →
     resetTime tokenData < at_time →
     cleanup at_time rateLimit !! identifier = None ∧
     (checkRateLimit identifier config now (cleanup at_time rateLimit)).2 =
       (checkRateLimit identifier config now ∅).2 ∧
     (checkRateLimit identifier config now (cleanup at_time rateLimit)).1 !! identifier =
       (checkRateLimit identifier config now ∅).1 !! identifier) ∧
  (∀ identifier tokenData,
     rateLimit !! identifier = Some tokenData →
     at_time <= resetTime tokenData →
     cleanup at_time rateLimit !! identifier = Some tokenData).
Proof.
  intros Hreqs. split_and!.
  - intros identifier. apply cleanup_lookup.
  - symmetry. apply (serve_same_up_to at_time); [|done].
    apply cleanup_same_up_to.
  - intros identifier tokenData config now Hget Hpast.
    assert (Hgone : cleanup at_time rateLimit !! identifier = None).
    { rewrite cleanup_lookup, Hget.
      destruct (Z.gtb_spec at_time (resetTime tokenData)); [done | lia]. }
    split; [done|]. apply check_local. by rewrite Hgone, lookup_empty.
  - intros identifier tokenData Hget Hlive.
    rewrite cleanup_lookup, Hget.
    destruct (Z.gtb_spec at_time (resetTime tokenData)); [lia | done].
Qed.

Lemma sweep_transparency_witness :
  let cfg := Some {| interval := 1000; uniqueTokenPerInterval := 2 |} in
  let rateLimit : gmap string TokenData :=
    <[ "old"%string := {| count := 2; resetTime := 5 |} ]>
      {[ "live"%string := {| count := 2; resetTime := 500 |} ]} in
  let reqs := [mkRequest "old" cfg 10; mkRequest "live" cfg 11;
               mkRequest "old" cfg 12; mkRequest "old" cfg 13] in
  (serve reqs (cleanup 10 rateLimit)).2 = (serve reqs rateLimit).2.
Proof.
  intros cfg rateLimit reqs.
  apply (sweep_transparency 10 rateLimit reqs).
  repeat constructor; simpl; lia.
Defined.

(** The order of time matters: a call stamped before the sweep (a clock set
    back) finds the swept window live in the unswept map. *)
Remark sweep_then_earlier_call :
  let cfg := Some {| interval := 1000; uniqueTokenPerInterval := 1 |} in
  let rateLimit : gmap string TokenData :=
    {[ "a"%string := {| count := 1; resetTime := 5 |} ]} in
  (checkRateLimit "a" cfg 3 rateLimit).2 = rejected ∧
  (checkRateLimit "a" cfg 3 (cleanup 10 rateLimit)).2 =
    {| success := true; remaining := 0 |}.
Proof. by vm_compute. Qed.

(** ** The default policy *)

(** C8 as the specification words it, with the policy of a call that names
    none being the DEFAULT tier of the table, fails: the first such call for
    a new key leaves 9 requests, the tier would leave 29. *)
Lemma default_is_not_the_DEFAULT_tier_counterexample :
  (checkRateLimit "unregistered-op-user1" None 0 ∅).2 =
    {| success := true; remaining := 9 |} ∧
  (checkRateLimit "unregistered-op-user1"
     (Some (policy_of_tier RATE_LIMITS.DEFAULT)) 0 ∅).2 =
    {| success := true; remaining := 29 |} ∧
  (checkRateLimit "unregistered-op-user1" None 0 ∅).2 ≠
    (checkRateLimit "unregistered-op-user1"
       (Some (policy_of_tier RATE_LIMITS.DEFAULT)) 0 ∅).2.
Proof. split_and!; [by vm_compute | by vm_compute | by vm_compute]. Qed.

(** C8, amended.  A call that names no policy returns a result (the function
    is total: it never throws) and is, for every identifier, time and map,
    the call under the policy [{interval: 60000, quota: 10}] of the
    signature: it opens a window of 60000 ms with [remaining = 9], admits
    while the stored count is below 10 and rejects from 10 on.  That policy
    has the interval of the DEFAULT tier and a smaller quota (10 against
    30). *)
Theorem default_policy_fallback identifier now (rateLimit : gmap string TokenData) :
  checkRateLimit identifier None now rateLimit =
    checkRateLimit identifier
      (Some {| interval := 60000; uniqueTokenPerInterval := 10 |}) now rateLimit ∧
  (stale rateLimit identifier now →
   checkRateLimit identifier None now rateLimit =
     (<[identifier := {| count := 1; resetTime := now + 60000 |}]> rateLimit,
      {| success := true; remaining := 9 |})) ∧
  (∀ tokenData,
     rateLimit !! identifier = Some tokenData →
     now <= resetTime tokenData →
     (checkRateLimit identifier None now rateLimit).2 =
       if 10 <=? count tokenData then rejected
       else {| success := true; remaining := 10 - (count tokenData + 1) |}) ∧
  interval (policy None) = tier_interval RATE_LIMITS.DEFAULT ∧
  uniqueTokenPerInterval (policy None) < requests RATE_LIMITS.DEFAULT.
Proof.
  split_and!; [done | | | done | done].
  - intros Hstale. by rewrite (check_stale _ None _ _ Hstale).
  - intros tokenData Hget Hnow.
    destruct (Z.leb_spec 10 (count tokenData)) as [Hfull | Hroom].
    + by rewrite (check_exhausted _ None _ _ _ Hget Hnow Hfull).
    + by rewrite (check_increment _ None _ _ _ Hget Hnow Hroom).
Qed.

(** ** Scenarios *)

(** Scenario A: quota 3 in one window. *)
Example scenario_A :
  (calls "write-user1" (Some {| interval := 60000; uniqueTokenPerInterval := 3 |})
     [0; 1; 2; 3] ∅).2 =
  [ {| success := true; remaining := 2 |}; {| success := true; remaining := 1 |};
    {| success := true; remaining := 0 |}; rejected ].
Proof. by vm_compute. Qed.

(** Scenario B: quota 1, window of 1000 ms opened at 0; the call at 1001 opens
    a new window. *)
Example scenario_B :
  (calls "auth-user2" (Some {| interval := 1000; uniqueTokenPerInterval := 1 |})
     [0; 500; 1001] ∅).2 =
  [ {| success := true; remaining := 0 |}; rejected;
    {| success := true; remaining := 0 |} ].
Proof. by vm_compute. Qed.

(** Scenario C: exhausting one identifier leaves the other its first call. *)
Example scenario_C :
  let cfg := Some {| interval := 300000; uniqueTokenPerInterval := 1 |} in
  (serve [mkRequest "sync-userA" cfg 0; mkRequest "sync-userA" cfg 1;
          mkRequest "sync-userB" cfg 2] ∅).2 =
  [ {| success := true; remaining := 0 |}; rejected;
    {| success := true; remaining := 0 |} ].
Proof. by vm_compute. Qed.

(** Scenario D: a sweep between two windows, one expired and one live. *)
Example scenario_D :
  let cfg := Some {| interval := 60000; uniqueTokenPerInterval := 3 |} in
  let rateLimit : gmap string TokenData :=
    <[ "expired"%string := {| count := 3; resetTime := 100 |} ]>
      {[ "live"%string := {| count := 2; resetTime := 900 |} ]} in
  let swept := cleanup 500 rateLimit in
  swept !! "expired"%string = None ∧
  swept !! "live"%string = Some {| count := 2; resetTime := 900 |} ∧
  (checkRateLimit "expired" cfg 501 swept).2 = {| success := true; remaining := 2 |} ∧
  (checkRateLimit "live" cfg 501 swept).2 = {| success := true; remaining := 0 |}.
Proof. by vm_compute. Qed.

(** * Further properties of the limiter *)

#[local] Set Warnings "-clear-no-such-hyp".

(** ** How many calls a window lets through *)

Lemma successes_cons r results :
  successes (r :: results) =
    ((if success r then 1 else 0) + successes results)%nat.
Proof. unfold successes, successful_remaining. cbn. by destruct (success r). Qed.

(** Of the calls made inside a live window, exactly as many succeed as the
    quota leaves room for above the stored count. *)
Lemma calls_live_successes identifier config times :
  ∀ (rateLimit : gmap string TokenData) tokenData,
    rateLimit !! identifier = Some tokenData →
    Forall (λ now, now <= resetTime tokenData) times →
    successes (calls identifier config times rateLimit).2 =
      (length times `min`
       Z.to_nat (uniqueTokenPerInterval (policy config) - count tokenData))%nat.
Proof.
  induction times as [|now times IH]; intros rateLimit tokenData Hget Htimes; [done|].
  apply Forall_cons in Htimes as [Hnow Htimes]. cbn [calls].
  destruct (Z.le_gt_cases (uniqueTokenPerInterval (policy config)) (count tokenData))
    as [Hfull | Hroom].
  - rewrite (check_exhausted _ config _ _ _ Hget Hnow Hfull).
    specialize (IH rateLimit tokenData Hget Htimes).
    destruct (calls identifier config times rateLimit) as [rateLimit' rs].
    cbn [snd] in *. rewrite successes_cons, IH. cbn [length success rejected]. lia.
  - rewrite (check_increment _ config _ _ _ Hget Hnow Hroom).
    set (stored := {| count := count tokenData + 1; resetTime := resetTime tokenData |}).
    specialize (IH (<[identifier := stored]> rateLimit) stored
                  (lookup_insert_eq _ _ _) Htimes).
    destruct (calls identifier config times (<[identifier := stored]> rateLimit))
      as [rateLimit' rs].
    cbn [snd] in *. rewrite successes_cons, IH. cbn [length success]. simpl count. lia.
Qed.

(** X1.  When a call opens a window and [n] further calls follow inside it,
    the number of successful calls among these [n + 1] is exactly
    [min (n + 1) (max 1 quota)]: a window never lets through more than
    [max 1 quota] calls, and never fewer than were asked for below that. *)
Theorem window_successes identifier cfg rateLimit first others :
  stale rateLimit identifier first →
  Forall (λ now, now <= first + interval cfg) others →
  successes (calls identifier (Some cfg) (first :: others) rateLimit).2 =
    (S (length others) `min` (1 `max` Z.to_nat (uniqueTokenPerInterval cfg)))%nat.
Proof.
  intros Hstale Hothers. cbn [calls].
  rewrite (check_stale _ (Some cfg) _ _ Hstale).
  pose proof (calls_live_successes identifier (Some cfg) others
    (<[identifier := fresh_window (Some cfg) first]> rateLimit)
    (fresh_window (Some cfg) first) (lookup_insert_eq _ _ _) Hothers) as Hrest.
  destruct (calls identifier (Some cfg) others _) as [rateLimit' rs].
  cbn [snd] in *. rewrite successes_cons, Hrest. cbn [success].
  change (uniqueTokenPerInterval (policy (Some cfg))) with (uniqueTokenPerInterval cfg).
  change (count (fresh_window (Some cfg) first)) with 1. lia.
Qed.

Lemma window_successes_witness :
  successes
    (calls "write-user1" (Some {| interval := 60000; uniqueTokenPerInterval := 3 |})
       [0; 5; 10; 15; 60000] ∅).2 = 3%nat.
Proof.
  apply (window_successes "write-user1"
           {| interval := 60000; uniqueTokenPerInterval := 3 |} ∅ 0
           [5; 10; 15; 60000]).
  - by left.
  - repeat constructor; simpl; lia.
Defined.

(** ** Bounds on results and counters *)

(** X2.  Under a policy with [quota >= 1], in any map the process can reach,
    the [remaining] of a result lies between 0 and [quota - 1], and a
    rejected call reports [remaining = 0]. *)
Theorem remaining_bounds history identifier cfg now :
  1 <= uniqueTokenPerInterval cfg →
  let r := (checkRateLimit identifier (Some cfg) now (run history)).2 in
  0 <= remaining r <= uniqueTokenPerInterval cfg - 1 ∧
  (success r = false → remaining r = 0).
Proof.
  intros Hquota.
  assert (Hpos : counts_positive (run history)).
  { apply history_counts_positive. unfold counts_positive. apply map_Forall_empty. }
  destruct (stale_or_live identifier now (run history))
    as [Hstale | (tokenData & Hget & Hnow)].
  - rewrite (check_stale _ (Some cfg) _ _ Hstale). simpl. split; [lia | done].
  - pose proof (Hpos _ _ Hget) as Hcount. simpl in Hcount.
    destruct (Z.le_gt_cases (uniqueTokenPerInterval cfg) (count tokenData))
      as [Hfull | Hroom].
    + rewrite (check_exhausted _ (Some cfg) _ _ _ Hget Hnow Hfull). simpl.
      split; [lia | done].
    + rewrite (check_increment _ (Some cfg) _ _ _ Hget Hnow Hroom). simpl.
      split; [lia | done].
Qed.

Lemma remaining_bounds_witness :
  let r := (checkRateLimit "a" (Some {| interval := 10; uniqueTokenPerInterval := 2 |}) 3
              (run [Check "a" (Some {| interval := 10; uniqueTokenPerInterval := 5 |}) 1;
                    Check "a" (Some {| interval := 10; uniqueTokenPerInterval := 5 |}) 2])).2 in
  0 <= remaining r <= 1 ∧ (success r = false → remaining r = 0).
Proof.
  apply (remaining_bounds
           [Check "a" (Some {| interval := 10; uniqueTokenPerInterval := 5 |}) 1;
            Check "a" (Some {| interval := 10; uniqueTokenPerInterval := 5 |}) 2]
           "a" {| interval := 10; uniqueTokenPerInterval := 2 |} 3).
  simpl; lia.
Defined.

Lemma history_counts_bounded bound history :
  1 <= bound →
  ∀ rateLimit : gmap string TokenData,
    map_Forall (λ _ tokenData, count tokenData <= bound) rateLimit →
    quotas_at_most bound history →
    map_Forall (λ _ tokenData, count tokenData <= bound) (foldl step rateLimit history).
Proof.
  intros Hbound. induction history as [|e history IH]; intros rateLimit Hle Hq; [done|].
  apply Forall_cons in Hq as [He Hq]. cbn [foldl]. apply IH; [|done].
  destruct e as [identifier config now | now]; cbn [step].
  - destruct (stale_or_live identifier now rateLimit)
      as [Hstale | (tokenData & Hget & Hnow)].
    + rewrite (check_stale _ config _ _ Hstale). cbn [fst].
      apply map_Forall_insert_2; [simpl; lia | done].
    + destruct (Z.le_gt_cases (uniqueTokenPerInterval (policy config)) (count tokenData))
        as [Hfull | Hroom].
      * by rewrite (check_exhausted _ _ _ _ _ Hget Hnow Hfull).
      * rewrite (check_increment _ _ _ _ _ Hget Hnow Hroom). cbn [fst].
        apply map_Forall_insert_2; [simpl; lia | done].
  - intros identifier tokenData. rewrite cleanup_lookup.
    destruct (rateLimit !! identifier) as [stored|] eqn:Hget; [|done].
    destruct (now >? resetTime stored); [done|].
    intros [= <-]. by apply (Hle identifier).
Qed.

(** X3.  If every call of a history runs under a quota of at most [bound]
    (with [bound >= 1]), no stored counter ever exceeds [bound]: rejected
    calls are not counted, so a counter stops at the quota. *)
Theorem stored_count_at_most_quota bound history identifier tokenData :
  1 <= bound →
  quotas_at_most bound history →
  run history !! identifier = Some tokenData →
  count tokenData <= bound.
Proof.
  intros Hbound Hq Hget.
  exact (history_counts_bounded bound history Hbound ∅ (map_Forall_empty _) Hq
           identifier tokenData Hget).
Qed.

Lemma stored_count_at_most_quota_witness :
  count {| count := 2; resetTime := 100 |} <= 2.
Proof.
  apply (stored_count_at_most_quota 2
           [Check "a" (Some {| interval := 100; uniqueTokenPerInterval := 2 |}) 0;
            Check "a" (Some {| interval := 100; uniqueTokenPerInterval := 2 |}) 1;
            Check "a" (Some {| interval := 100; uniqueTokenPerInterval := 2 |}) 2;
            Check "a" (Some {| interval := 100; uniqueTokenPerInterval := 1 |}) 3]
           "a").
  - lia.
  - repeat constructor; simpl; lia.
  - vm_compute. reflexivity.
Defined.

(** ** Sweeps compose *)

(** X4.  Two sweeps in a row amount to one sweep at the later of the two
    times, in whichever order they run; in particular sweeping twice at the
    same time is sweeping once. *)
Theorem cleanup_twice t1 t2 (rateLimit : gmap string TokenData) :
  cleanup t2 (cleanup t1 rateLimit) = cleanup (t1 `max` t2) rateLimit ∧
  cleanup t2 (cleanup t1 rateLimit) = cleanup t1 (cleanup t2 rateLimit) ∧
  cleanup t1 (cleanup t1 rateLimit) = cleanup t1 rateLimit.
Proof.
  assert (Hmax : ∀ a b, cleanup b (cleanup a rateLimit) = cleanup (a `max` b) rateLimit).
  { intros a b. apply map_eq. intros identifier. rewrite !cleanup_lookup.
    destruct (rateLimit !! identifier) as [tokenData|]; [|done].
    destruct (Z.gtb_spec a (resetTime tokenData));
      destruct (Z.gtb_spec (a `max` b) (resetTime tokenData)); try lia; try done.
    - destruct (Z.gtb_spec b (resetTime tokenData)); [done | lia].
    - destruct (Z.gtb_spec b (resetTime tokenData)); [lia | done]. }
  split_and!.
  - apply Hmax.
  - by rewrite !Hmax, Z.max_comm.
  - by rewrite Hmax, Z.max_id.
Qed.

(** ** Which identifiers the map holds *)

Lemma check_dom identifier config now (rateLimit : gmap string TokenData) :
  dom (checkRateLimit identifier config now rateLimit).1 = {[identifier]} ∪ dom rateLimit.
Proof.
  destruct (stale_or_live identifier now rateLimit)
    as [Hstale | (tokenData & Hget & Hnow)].
  - rewrite (check_stale _ config _ _ Hstale). cbn [fst]. by rewrite dom_insert_L.
  - assert (identifier ∈ dom rateLimit) by (apply elem_of_dom; eauto).
    destruct (Z.le_gt_cases (uniqueTokenPerInterval (policy config)) (count tokenData))
      as [Hfull | Hroom].
    + rewrite (check_exhausted _ _ _ _ _ Hget Hnow Hfull). cbn [fst]. set_solver.
    + rewrite (check_increment _ _ _ _ _ Hget Hnow Hroom). cbn [fst].
      rewrite dom_insert_L. set_solver.
Qed.

Lemma cleanup_dom now (rateLimit : gmap string TokenData) :
  dom (cleanup now rateLimit) ⊆ dom rateLimit.
Proof.
  intros identifier. rewrite !elem_of_dom, cleanup_lookup.
  destruct (rateLimit !! identifier) as [tokenData|]; [eauto|].
  by intros [? ?].
Qed.

Lemma checked_identifiers_cons e history :
  checked_identifiers (e :: history) =
    match e with
    | Check identifier _ _ => {[identifier]} ∪ checked_identifiers history
    | Cleanup _ => checked_identifiers history
    end.
Proof. by destruct e. Qed.

(** X5.  The map only ever holds identifiers that were passed to
    [checkRateLimit]; and as long as the cleanup timer has not fired it holds
    every one of them: without the sweep no identifier is ever forgotten. *)
Theorem stored_identifiers history :
  dom (run history) ⊆ checked_identifiers history ∧
  (never_swept history → dom (run history) = checked_identifiers history).
Proof.
  unfold run.
  assert (Hgen : ∀ rateLimit : gmap string TokenData,
    dom (foldl step rateLimit history) ⊆ dom rateLimit ∪ checked_identifiers history ∧
    (never_swept history →
     dom (foldl step rateLimit history) = dom rateLimit ∪ checked_identifiers history)).
  { induction history as [|e history IH]; intros rateLimit.
    - cbn. split; [set_solver | intros _; set_solver].
    - cbn [foldl]. destruct (IH (step rateLimit e)) as [IHsub IHeq].
      rewrite checked_identifiers_cons. split.
      + destruct e as [identifier config now | now]; cbn [step] in *.
        * rewrite check_dom in IHsub. set_solver.
        * pose proof (cleanup_dom now rateLimit). set_solver.
      + intros Hns. apply Forall_cons in Hns as [He Hns].
        destruct e as [identifier config now | now]; [|done]. cbn [step] in *.
        rewrite (IHeq Hns), check_dom. set_solver. }
  destruct (Hgen ∅) as [Hsub Heq]. rewrite dom_empty_L in Hsub, Heq.
  split; [set_solver|]. intros Hns. rewrite (Heq Hns). set_solver.
Qed.

(** ** The burst at a window boundary *)

Lemma calls_app identifier config times1 times2 :
  ∀ rateLimit : gmap string TokenData,
    calls identifier config (times1 ++ times2) rateLimit =
      let '(rateLimit1, rs1) := calls identifier config times1 rateLimit in
      let '(rateLimit2, rs2) := calls identifier config times2 rateLimit1 in
      (rateLimit2, rs1 ++ rs2).
Proof.
  induction times1 as [|now times1 IH]; intros rateLimit.
  - cbn. by destruct (calls identifier config times2 rateLimit).
  - cbn [calls app]. destruct (checkRateLimit identifier config now rateLimit)
      as [rateLimit' r].
    rewrite IH. destruct (calls identifier config times1 rateLimit') as [rateLimit1 rs1].
    by destruct (calls identifier config times2 rateLimit1).
Qed.

(** A call that opens a window and further calls inside it, no more than the
    quota in all, succeed one and all and leave the count at their number. *)
Lemma calls_opening identifier cfg first others (rateLimit : gmap string TokenData) :
  stale rateLimit identifier first →
  Forall (λ now, now <= first + interval cfg) others →
  1 + Z.of_nat (length others) <= uniqueTokenPerInterval cfg →
  (calls identifier (Some cfg) (first :: others) rateLimit).1 !! identifier =
    Some {| count := 1 + Z.of_nat (length others); resetTime := first + interval cfg |} ∧
  Forall (λ r, success r = true)
    (calls identifier (Some cfg) (first :: others) rateLimit).2.
Proof.
  intros Hstale Hothers Hroom. cbn [calls].
  rewrite (check_stale _ (Some cfg) _ _ Hstale).
  destruct (calls_counting identifier (Some cfg) others
              (<[identifier := fresh_window (Some cfg) first]> rateLimit)
              (fresh_window (Some cfg) first)) as [Hmap Hres];
    [apply lookup_insert_eq | done | simpl; lia |].
  destruct (calls identifier (Some cfg) others _) as [rateLimit' rs].
  cbn [fst snd] in *. split; [done|].
  apply Forall_cons. split; [done|]. rewrite Hres.
  apply Forall_fmap, Forall_true. done.
Qed.

(** X6.  The fixed window lets a burst through at its boundary.  For every
    policy with [quota >= 1] and [interval >= 0]: after a call that opens a
    window at [t0], [quota - 1] calls in the window's last millisecond
    [t0 + interval] and [quota] calls one millisecond later all succeed, so
    [2 * quota - 1] calls get through within two consecutive
    milliseconds. *)
Theorem boundary_burst identifier cfg t0 (rateLimit : gmap string TokenData) :
  1 <= uniqueTokenPerInterval cfg →
  0 <= interval cfg →
  stale rateLimit identifier t0 →
  let quota := Z.to_nat (uniqueTokenPerInterval cfg) in
  let burst := replicate (quota - 1) (t0 + interval cfg) ++
               replicate quota (t0 + interval cfg + 1) in
  let results := (calls identifier (Some cfg) (t0 :: burst) rateLimit).2 in
  Forall (λ r, success r = true) results ∧
  length results = (2 * quota)%nat.
Proof.
  intros Hquota Hinterval Hstale quota burst results.
  assert (Hlen : length results = (2 * quota)%nat).
  { subst results. assert (Hl : ∀ times rl, length (calls identifier (Some cfg) times rl).2 = length times).
    { induction times as [|now times IH]; intros rl; [done|]. cbn [calls].
      destruct (checkRateLimit identifier (Some cfg) now rl) as [rl' r].
      specialize (IH rl'). destruct (calls identifier (Some cfg) times rl').
      cbn [snd length] in *. by rewrite IH. }
    rewrite Hl. subst burst. cbn [length].
    rewrite length_app, !length_replicate. lia. }
  split; [|done]. subst results burst.
  change (t0 :: replicate (quota - 1) (t0 + interval cfg) ++
            replicate quota (t0 + interval cfg + 1))
    with ((t0 :: replicate (quota - 1) (t0 + interval cfg)) ++
            replicate quota (t0 + interval cfg + 1)).
  rewrite calls_app.
  destruct (calls_opening identifier cfg t0 (replicate (quota - 1) (t0 + interval cfg))
              rateLimit Hstale) as [Hmap1 Hres1].
  { apply Forall_replicate. lia. }
  { rewrite length_replicate. lia. }
  destruct (calls identifier (Some cfg) (t0 :: replicate (quota - 1) (t0 + interval cfg))
              rateLimit) as [rateLimit1 rs1].
  cbn [fst snd] in *.
  assert (Hq : quota = S (quota - 1)) by lia. rewrite Hq at 1. cbn [replicate].
  destruct (calls_opening identifier cfg (t0 + interval cfg + 1)
              (replicate (quota - 1) (t0 + interval cfg + 1)) rateLimit1)
    as [_ Hres2].
  { right. eexists. split; [exact Hmap1 | simpl; lia]. }
  { apply Forall_replicate. lia. }
  { rewrite length_replicate. lia. }
  destruct (calls identifier (Some cfg) _ rateLimit1) as [rateLimit2 rs2].
  cbn [snd] in *. by apply Forall_app.
Qed.

Lemma boundary_burst_witness :
  Forall (λ r, success r = true)
    (calls "sync-userA" (Some {| interval := 300000; uniqueTokenPerInterval := 3 |})
       [0; 300000; 300000; 300001; 300001; 300001] ∅).2.
Proof.
  apply (boundary_burst "sync-userA"
           {| interval := 300000; uniqueTokenPerInterval := 3 |} 0 ∅).
  - simpl; lia.
  - simpl; lia.
  - by left.
Defined.

(** ** Negative intervals *)

(** X7.  Under a policy with a negative interval the limiter limits nothing:
    when calls arrive at non-decreasing times, starting on an identifier with
    no live window, every one of them opens a fresh window and succeeds with
    [remaining = quota - 1], whatever the quota. *)
Theorem negative_interval_never_limits identifier cfg times
    (rateLimit : gmap string TokenData) :
  interval cfg < 0 →
  non_decreasing times →
  (∀ first, head times = Some first → stale rateLimit identifier first) →
  (calls identifier (Some cfg) times rateLimit).2 =
    replicate (length times)
      {| success := true; remaining := uniqueTokenPerInterval cfg - 1 |}.
Proof.
  intros Hneg. revert rateLimit.
  induction times as [|now times IH]; intros rateLimit Hsorted Hfirst; [done|].
  destruct Hsorted as [Hlater Hsorted]. cbn [calls].
  rewrite (check_stale _ (Some cfg) _ _ (Hfirst now eq_refl)).
  specialize (IH (<[identifier := fresh_window (Some cfg) now]> rateLimit) Hsorted).
  destruct (calls identifier (Some cfg) times _) as [rateLimit' rs].
  cbn [snd length replicate] in *. f_equal. apply IH.
  intros next Hnext. right. eexists. split; [apply lookup_insert_eq|].
  destruct times as [|t times]; [done|]. injection Hnext as ->.
  apply Forall_cons in Hlater as [Hle _]. simpl. lia.
Qed.

Lemma negative_interval_never_limits_witness :
  (calls "a" (Some {| interval := -1; uniqueTokenPerInterval := 1 |}) [5; 5; 6; 9] ∅).2 =
  replicate 4 {| success := true; remaining := 0 |}.
Proof.
  apply (negative_interval_never_limits "a"
           {| interval := -1; uniqueTokenPerInterval := 1 |} [5; 5; 6; 9] ∅).
  - simpl; lia.
  - simpl. repeat split; repeat constructor; lia.
  - intros first _. by left.
Defined.

(** * The route handlers *)

(** ** Keys *)

Lemma append_inj_r prefix a b : prefix +:+ a = prefix +:+ b → a = b.
Proof. induction prefix as [|c prefix IH]; cbn; [done|]. intros [= H]. auto. Qed.

Lemma diverge_append s1 : ∀ s2 a b, diverge s1 s2 = true → s1 +:+ a ≠ s2 +:+ b.
Proof.
  induction s1 as [|c1 s1 IH]; intros [|c2 s2] a b; cbn; try done.
  destruct (Ascii.eqb_spec c1 c2) as [-> | Hne].
  - intros Hd [= H]. by apply (IH s2 a b Hd).
  - intros _ [= H _]. done.
Qed.

Lemma route_prefixes_diverge :
  Forall (λ p1, Forall (λ p2, p1 = p2 ∨ diverge p1 p2 = true) route_prefixes)
    route_prefixes.
Proof. apply (bool_decide_unpack _). by vm_compute. Qed.

Lemma route_keys_inj p1 p2 u1 u2 :
  p1 ∈ route_prefixes → p2 ∈ route_prefixes →
  route_key p1 u1 = route_key p2 u2 → p1 = p2 ∧ u1 = u2.
Proof.
  intros Hp1 Hp2 Hkey.
  pose proof route_prefixes_diverge as Hall.
  rewrite Forall_forall in Hall. specialize (Hall p1 Hp1).
  rewrite Forall_forall in Hall. destruct (Hall p2 Hp2) as [-> | Hd].
  - split; [done|]. by apply (append_inj_r p2).
  - by destruct (diverge_append _ _ u1 u2 Hd).
Qed.

(** X8.  The keys of the handlers never collide: whatever the user ids, two
    keys built by handlers of the sources are equal only if they come from
    the same handler prefix and the same user id. *)
Theorem route_keys_never_collide p1 p2 u1 u2 :
  p1 ∈ route_prefixes →
  p2 ∈ route_prefixes →
  route_key p1 u1 = route_key p2 u2 →
  p1 = p2 ∧ u1 = u2.
Proof. apply route_keys_inj. Qed.

Lemma route_keys_never_collide_witness :
  "shipment-get-"%string = "shipment-get-"%string ∧ "s-get-7"%string = "s-get-7"%string.
Proof.
  apply (route_keys_never_collide "shipment-get-" "shipment-get-" "s-get-7" "s-get-7").
  - apply (bool_decide_unpack _). by vm_compute.
  - apply (bool_decide_unpack _). by vm_compute.
  - reflexivity.
Defined.

(** X9.  Each pair of handler and user has a counter of its own: requests of
    other pairs, in any number and under any configs, leave the stored window
    of a pair and the result of its next call as they were. *)
Theorem route_isolation prefix user hits (rateLimit : gmap string TokenData) :
  prefix ∈ route_prefixes →
  Forall (λ h, hit_prefix h ∈ route_prefixes ∧
               (hit_prefix h, hit_user h) ≠ (prefix, user)) hits →
  let rateLimit' := (serve (request_of_hit <$> hits) rateLimit).1 in
  rateLimit' !! route_key prefix user = rateLimit !! route_key prefix user ∧
  ∀ config now,
    (checkRateLimit (route_key prefix user) config now rateLimit').2 =
      (checkRateLimit (route_key prefix user) config now rateLimit).2.
Proof.
  intros Hprefix Hhits rateLimit'.
  assert (Hsame : rateLimit' !! route_key prefix user = rateLimit !! route_key prefix user).
  { apply serve_other. apply Forall_fmap. eapply Forall_impl; [exact Hhits|].
    intros h [Hin Hne] Hkey. cbn in Hkey.
    destruct (route_keys_inj _ _ _ _ Hin Hprefix Hkey) as [Hp Hu].
    apply Hne. by rewrite Hp, Hu. }
  split; [done|]. intros config now. by apply check_local.
Qed.

Lemma route_isolation_witness :
  let cfg := Some {| interval := 60000; uniqueTokenPerInterval := 1 |} in
  (checkRateLimit (route_key "shipment-get-" "u1") cfg 2
     (serve (request_of_hit <$>
               [mkHit "shipments-get-" "u1" cfg 0; mkHit "shipment-get-" "u2" cfg 1;
                mkHit "shipments-get-" "u1" cfg 1]) ∅).1).2 =
  (checkRateLimit (route_key "shipment-get-" "u1") cfg 2 ∅).2.
Proof.
  intros cfg.
  apply (route_isolation "shipment-get-" "u1"
           [mkHit "shipments-get-" "u1" cfg 0; mkHit "shipment-get-" "u2" cfg 1;
            mkHit "shipments-get-" "u1" cfg 1] ∅).
  - apply (bool_decide_unpack _). by vm_compute.
  - repeat constructor; cbn; try (apply (bool_decide_unpack _); by vm_compute);
      discriminate.
Defined.

(** ** The gate of a handler *)

(** X10.  A handler answers 401 exactly when there is an auth error or no
    user, and 429 exactly when the caller's window is live and full; in both
    cases the limiter's map is left as it was.  Only a request that goes on
    is counted, under the key of handler and user. *)
Theorem route_gate_outcome route authError user now
    (rateLimit : gmap string TokenData) :
  let '(rateLimit', outcome) := route_gate route authError user now rateLimit in
  match outcome with
  | Respond status error =>
      rateLimit' = rateLimit ∧
      ((status = 401 ∧ error = "Unauthorized"%string ∧
        (authError = true ∨ user = None)) ∨
       (status = 429 ∧ error = throttle_message route ∧ authError = false ∧
        ∃ user_id tokenData,
          user = Some user_id ∧
          rateLimit !! route_key (key_prefix route) user_id = Some tokenData ∧
          now <= resetTime tokenData ∧
          uniqueTokenPerInterval (route_config route) <= count tokenData))
  | Proceed user_id =>
      user = Some user_id ∧ authError = false ∧
      ∃ r, success r = true ∧
           checkRateLimit (route_key (key_prefix route) user_id)
             (Some (route_config route)) now rateLimit = (rateLimit', r)
  end.
Proof.
  unfold route_gate. destruct user as [user_id|]; [|by split; [|left]; eauto].
  destruct authError; [by split; [|left]; eauto|].
  set (key := route_key (key_prefix route) user_id).
  destruct (stale_or_live key now rateLimit) as [Hstale | (tokenData & Hget & Hnow)].
  - rewrite (check_stale _ (Some (route_config route)) _ _ Hstale). cbn.
    split_and!; [done..|]. eexists.
    split; [|exact (check_stale _ (Some (route_config route)) _ _ Hstale)]. done.
  - destruct (Z.le_gt_cases (uniqueTokenPerInterval (route_config route)) (count tokenData))
      as [Hfull | Hroom].
    + rewrite (check_exhausted _ (Some (route_config route)) _ _ _ Hget Hnow Hfull). cbn.
      split; [done|]. right. split_and!; [done..|]. by exists user_id, tokenData.
    + rewrite (check_increment _ (Some (route_config route)) _ _ _ Hget Hnow Hroom). cbn.
      split_and!; [done..|]. eexists.
      split; [|exact (check_increment _ (Some (route_config route)) _ _ _ Hget Hnow Hroom)].
      done.
Qed.

(** ** Handlers that pass a tier *)

(** With [uniqueTokenPerInterval] present, the untyped run is the typed one. *)
Lemma untyped_agrees identifier config now (rateLimit : gmap string TokenData) :
  checkRateLimit_untyped identifier (object_of_config config) now rateLimit =
    let '(rateLimit', r) := checkRateLimit identifier (Some config) now rateLimit in
    (rateLimit', {| untyped_success := success r;
                    untyped_remaining := Some (remaining r) |}).
Proof.
  unfold checkRateLimit_untyped, checkRateLimit. cbn.
  destruct (rateLimit !! identifier) as [tokenData|]; [|done].
  destruct (now >? resetTime tokenData); [done|].
  by destruct (count tokenData >=? uniqueTokenPerInterval config).
Qed.

(** X11.  When a tier of [RATE_LIMITS] is passed as the config, no call is
    ever rejected: every call returns [success = true] with a [remaining]
    that is not a number, at any times and from any map; and inside a live
    window every call still raises the stored count, without bound. *)
Theorem tier_config_never_rejects identifier tier times
    (rateLimit : gmap string TokenData) :
  (calls_untyped identifier (object_of_tier tier) times rateLimit).2 =
    replicate (length times)
      {| untyped_success := true; untyped_remaining := None |} ∧
  ∀ tokenData,
    rateLimit !! identifier = Some tokenData →
    Forall (λ now, now <= resetTime tokenData) times →
    (calls_untyped identifier (object_of_tier tier) times rateLimit).1 !! identifier =
      Some {| count := count tokenData + Z.of_nat (length times);
              resetTime := resetTime tokenData |}.
Proof.
  split.
  - revert rateLimit. induction times as [|now times IH]; intros rateLimit; [done|].
    cbn [calls_untyped].
    assert (Hone : (checkRateLimit_untyped identifier (object_of_tier tier) now rateLimit).2 =
              {| untyped_success := true; untyped_remaining := None |}).
    { unfold checkRateLimit_untyped. cbn.
      destruct (rateLimit !! identifier) as [tokenData|]; [|done].
      by destruct (now >? resetTime tokenData). }
    destruct (checkRateLimit_untyped identifier (object_of_tier tier) now rateLimit)
      as [rateLimit' r].
    specialize (IH rateLimit').
    destruct (calls_untyped identifier (object_of_tier tier) times rateLimit').
    cbn [snd length replicate] in *. by rewrite Hone, IH.
  - revert rateLimit. induction times as [|now times IH];
      intros rateLimit tokenData Hget Htimes.
    + cbn. rewrite Hget, Z.add_0_r. by destruct tokenData.
    + apply Forall_cons in Htimes as [Hnow Htimes]. cbn [calls_untyped].
      unfold checkRateLimit_untyped. rewrite Hget. cbn.
      destruct (Z.gtb_spec now (resetTime tokenData)); [lia|].
      set (stored := {| count := count tokenData + 1; resetTime := resetTime tokenData |}).
      specialize (IH (<[identifier := stored]> rateLimit) stored
                    (lookup_insert_eq _ _ _) Htimes).
      destruct (calls_untyped identifier (object_of_tier tier) times _).
      cbn [fst] in *. rewrite IH. simpl. do 2 f_equal. lia.
Qed.

(** X12.  A handler that passes a tier never answers 429: its gate ends in
    the 401 response when there is an auth error or no user, and lets every
    other request go on. *)
Theorem tier_route_never_throttles route authError user now
    (rateLimit : gmap string TokenData) :
  match (tier_route_gate route authError user now rateLimit).2 with
  | inl response =>
      response = unauthorizedResponse None ∧ resp_status response = 401 ∧
      (authError = true ∨ user = None)
  | inr user_id => user = Some user_id ∧ authError = false
  end.
Proof.
  unfold tier_route_gate. destruct user as [user_id|]; [|by cbn; eauto].
  destruct authError; [by cbn; eauto|].
  unfold checkRateLimit_untyped. cbn.
  destruct (rateLimit !! route_key (tier_key_prefix route) user_id) as [tokenData|];
    [|done].
  by destruct (now >? resetTime tokenData).
Qed.

(** ** Error responses *)


(** X14.  The rate-limit response has status 429, code [RATE_LIMIT_EXCEEDED]
    and [success = false] for every argument.  It carries a [Retry-After]
    header exactly when a number other than 0 is passed, and the header is
    then the decimal numeral of that number; a call without argument, as the
    handlers make it, sets no header. *)
Theorem rateLimitResponse_shape retryAfter :
  let response := rateLimitResponse retryAfter in
  resp_status response = 429 ∧
  resp_code response = RATE_LIMIT_EXCEEDED ∧
  resp_success response = false ∧
  (resp_retry_after response = None ↔ retryAfter = None ∨ retryAfter = Some 0) ∧
  (∀ seconds, retryAfter = Some seconds → seconds ≠ 0 →
     resp_retry_after response = Some (pretty seconds)).
Proof.
  destruct retryAfter as [seconds|]; cbn.
  - destruct (Z.eqb_spec seconds 0) as [-> | Hne]; cbn.
    + split_and!; try done; [split; [by right | done] | by intros ? [= <-] ?].
    + split_and!; try done.
      * split; [done|]. intros [? | [= ?]]; done.
      * by intros ? [= <-] _.
  - split_and!; try done. split; [by left | done].
Qed.

(** ** Pagination *)

(** X15.  For a page size of at least 1 the pagination meta data are
    consistent: [totalPages] is the least number of pages that hold [total]
    items, and [hasMore] is true exactly on the pages before the last. *)
Theorem paginatedResponse_consistent page limit total :
  1 <= limit →
  ∃ pages,
    totalPages (paginatedResponse page limit total) = Some pages ∧
    (pages - 1) * limit < total <= pages * limit ∧
    (hasMore (paginatedResponse page limit total) = true ↔ page < pages).
Proof.
  intros Hlimit. exists (- ((- total) `div` limit)). cbn.
  destruct (Z.eqb_spec limit 0); [lia|].
  pose proof (Z.div_mod (- total) limit ltac:(lia)) as Hdiv.
  pose proof (Z.mod_pos_bound (- total) limit ltac:(lia)) as Hmod.
  set (q := (- total) `div` limit) in *.
  split; [done|]. split; [nia|].
  rewrite Z.ltb_lt. split; intros; nia.
Qed.

Lemma paginatedResponse_consistent_witness :
  ∃ pages,
    totalPages (paginatedResponse 2 20 41) = Some pages ∧
    (pages - 1) * 20 < 41 <= pages * 20 ∧
    (hasMore (paginatedResponse 2 20 41) = true ↔ 2 < pages).
Proof. apply (paginatedResponse_consistent 2 20 41). lia. Defined.
